(** * The epoch-pipelined simulation driver of arbor (arbor/simulation.cpp)

    A shallow embedding of [merge_cell_events], [simulation_state] and the
    public [simulation] wrapper, with the properties of the driver that the
    specification states.

    Modelling conventions.
    - [time_type] is a floating-point number in the source.  The driver only
      compares times, takes the minimum of two times and adds the epoch
      interval to a time.  Times (and event weights) are modelled as exact
      rationals: every finite floating-point value is a rational and the
      comparisons agree; the rounding of [t1 + interval] is not modelled.
    - A [std::vector] is a list; an [event_span] (a pair of pointers into a
      vector) is the list of the events it views.
    - The thread pool is not modelled: two tasks of one [task_group] touch
      disjoint parts of the state and are run one after the other, and a
      parallel loop over cells or groups is run in index order.
    - The collaborators (cell groups, the communicator, event generators) are
      interfaces; their state is threaded explicitly. *)

From Stdlib Require Import QArith Qround Lia Lqa.
From stdpp Require Import base option list sorting gmap strings.

Local Open Scope Q_scope.

(** ** Times and events *)

Abbreviation time_type := Q.

(** [a < b] and [a <= b] on times, as the booleans the code branches on. *)
Definition time_lt (a b : time_type) : bool :=
  match a ?= b with Lt => true | _ => false end.

Definition time_le (a b : time_type) : bool := negb (time_lt b a).

Definition time_eq (a b : time_type) : bool := Qeq_bool a b.

(** [std::min(a, b)]: [b] when [b < a], otherwise [a]. *)
Definition std_min (a b : time_type) : time_type :=
  if time_lt b a then b else a.

(** Modelled from the spec: the post-synaptic event [spike_event] is
    declared in a header that is not among the sources.  The spec gives its
    fields: target (an index on the cell), weight and time. *)
Record spike_event := mk_event {
  target : N;
  time : time_type;
  weight : Q
}.

Abbreviation pse_vector := (list spike_event).
Abbreviation event_span := (list spike_event).

(** A spike, produced by a cell group and handed to the communicator. *)
Record spike := mk_spike {
  source : N;
  spike_time : time_type
}.

(** Modelled from the spec: [event_time_less], also declared outside the
    sources, compares the time of an event with a time. *)
Definition event_time_less (e : spike_event) (t : time_type) : bool :=
  time_lt (time e) t.

(** Modelled from the spec: [operator<] on events.  The ordering key is the
    time, ties are broken by target and then by weight. *)
Definition event_lt (a b : spike_event) : bool :=
  time_lt (time a) (time b)
  || (time_eq (time a) (time b)
      && ((target a <? target b)%N
          || ((target a =? target b)%N && time_lt (weight a) (weight b)))).

(** ** The standard algorithms the driver calls *)

Section std_algorithms.
Context {A : Type}.

(** [v.clear()] on a vector. *)
Definition vector_clear (v : list A) : list A := [].

(** [std::lower_bound(first, last, v, cmp)] on a range partitioned by
    [cmp _ v]: the position of the first element [e] with [cmp e v] false.
    The partition point is found here by a scan from the left. *)
Fixpoint lower_bound {V : Type} (cmp : A → V → bool) (l : list A) (v : V) : nat :=
  match l with
  | [] => 0%nat
  | e :: l' => if cmp e v then S (lower_bound cmp l' v) else 0%nat
  end.

(** [split_sorted_range(seq, v, cmp)]: the range before and the range from
    the lower bound of [v]. *)
Definition split_sorted_range {V : Type} (seq : list A) (v : V) (cmp : A → V → bool)
  : list A * list A :=
  let it := lower_bound cmp seq v in (take it seq, drop it seq).

(** [std::merge(first1, last1, first2, last2, out)] with the comparison
    [lt]: the head of the second range is taken when it is less than the
    head of the first range, otherwise the head of the first range. *)
Fixpoint std_merge (lt : A → A → bool) (l1 : list A) : list A → list A :=
  fix merge_second (l2 : list A) : list A :=
    match l1, l2 with
    | [], _ => l2
    | _, [] => l1
    | x1 :: l1', x2 :: l2' =>
        if lt x2 x1 then x2 :: merge_second l2'
        else x1 :: std_merge lt l1' l2
    end.

(** Insertion of one element before the first element that is greater. *)
Fixpoint sort_insert (lt : A → A → bool) (x : A) (l : list A) : list A :=
  match l with
  | [] => [x]
  | y :: l' => if lt x y then x :: l else y :: sort_insert lt x l'
  end.

(** Modelled from the spec: [util::sort] is declared in a header that is not
    among the sources.  It sorts a vector by [operator<] of its elements;
    here by insertion, so that elements that compare equal keep their
    order. *)
Definition util_sort (lt : A → A → bool) (l : list A) : list A :=
  foldr (sort_insert lt) [] l.
End std_algorithms.

(** The comparison of two events by time alone. *)
Definition event_time_lt (a b : spike_event) : bool := time_lt (time a) (time b).

(** Modelled from the spec: [tree_merge_events] is defined in
    merge_events.cpp, which is not among the sources.  The spec describes a
    K-way tree merge of the spans into [out], by time, in which events of
    equal time keep the order of the spans they come from (old before
    pending before generator i in ascending i).  Such a merge is the merge of
    the first span with the merge of the others, the first span winning
    ties. *)
Definition tree_merge_events (sources : list event_span) (out : pse_vector) : pse_vector :=
  out ++ foldr (std_merge event_time_lt) [] sources.

(** ** Event generators *)

(** An event generator yields the events of an interval and keeps its own
    clock; [events] therefore returns the generator's next state as well. *)
Class EventGenerator (G : Type) := {
  events : time_type → time_type → G → event_span * G;
  generator_reset : G → G
}.

Section merge.
Context {G : Type} `{!EventGenerator G}.

(** The loop over the generators in [merge_cell_events]: each generator is
    asked for its events in the interval, non-empty spans are pushed on
    [spanbuf]. *)
Fixpoint push_generator_spans (t_from t_to : time_type) (generators : list G)
    (spanbuf : list event_span) : list G * list event_span :=
  match generators with
  | [] => ([], spanbuf)
  | g :: gs =>
      let '(evs, g') := events t_from t_to g in
      let spanbuf := if bool_decide (evs = []) then spanbuf else spanbuf ++ [evs] in
      let '(gs', spanbuf) := push_generator_spans t_from t_to gs spanbuf in
      (g' :: gs', spanbuf)
  end.

(** [merge_cell_events(t_from, t_to, old_events, pending, generators,
    new_events)].  The generators and [new_events] are passed by reference:
    their new values are returned.  The last step resizes [new_events] to
    its [n] elements plus room for the remaining events and merges these
    into it from position [n] on. *)
Definition merge_cell_events (t_from t_to : time_type)
    (old_events pending : event_span) (generators : list G)
    (new_events : pse_vector) : list G * pse_vector :=
  let new_events := vector_clear new_events in
  let old_events := (split_sorted_range old_events t_from event_time_less).2 in
  let '(generators, new_events, old_events, pending) :=
    if negb (bool_decide (generators = [])) then
      let old_split := split_sorted_range old_events t_to event_time_less in
      let pending_split := split_sorted_range pending t_to event_time_less in
      let spanbuf := [old_split.1; pending_split.1] in
      let '(generators, spanbuf) :=
        push_generator_spans t_from t_to generators spanbuf in
      let new_events := tree_merge_events spanbuf new_events in
      (generators, new_events, old_split.2, pending_split.2)
    else (generators, new_events, old_events, pending) in
  let n := length new_events in
  (generators, take n new_events ++ std_merge event_lt pending old_events).
End merge.

(** ** The epoch clock *)

(** Modelled from the spec: the [epoch] record is declared in a header that
    is not among the sources.  The spec gives it the fields [id], [t0] and
    [t1]; a default-constructed or reset epoch has all three zero,
    [advance_to(t)] sets [t0 ← t1], [t1 ← t], [id ← id+1], and an epoch is
    empty iff [t0 == t1]. *)
Record epoch := mk_epoch {
  id : Z;
  t0 : time_type;
  t1 : time_type
}.

(** Modelled from the spec: the default-constructed epoch [epoch()], with
    all fields zero. *)
Definition epoch_default : epoch := mk_epoch 0 0 0.

(** Modelled from the spec: [epoch::reset()] sets all fields to zero. *)
Definition epoch_reset (e : epoch) : epoch := epoch_default.

(** Modelled from the spec: [epoch::advance_to(t)]. *)
Definition advance_to (next_t1 : time_type) (e : epoch) : epoch :=
  mk_epoch (id e + 1) (t1 e) next_t1.

(** Modelled from the spec: [epoch::empty()], true iff [t0 == t1]. *)
Definition epoch_empty (e : epoch) : bool := time_eq (t0 e) (t1 e).

(** The lambda [next_epoch] of [run]: the following epoch, with max time
    [tfinal]. *)
Definition next_epoch (tfinal : time_type) (e : epoch) (interval : time_type) : epoch :=
  advance_to (std_min (t1 e + interval) tfinal) e.

(** ** Collaborators *)

(** The part of the cell group interface the driver calls in [run] and
    [reset]. *)
Class CellGroup (CG : Type) := {
  group_reset : CG → CG;
  group_advance : epoch → time_type → list pse_vector → CG → CG;
  group_spikes : CG → list spike;
  group_clear_spikes : CG → CG
}.

(** The part of the communicator interface the driver calls. *)
Class Communicator (C : Type) := {
  num_local_cells : C → nat;
  group_queue_range : C → nat → nat * nat;
  exchange : list spike → C → list spike * C;
  make_event_queues : list spike → list pse_vector → C → list pse_vector * C;
  communicator_reset : C → C
}.

(** ** Errors *)

(** The two exceptions the driver throws; the spec calls both domain
    errors. *)
Inductive exception :=
  | bad_event_time (event_time current_time : time_type)
  | domain_error (what : string).

Inductive outcome (A : Type) :=
  | Returns (a : A)
  | Throws (e : exception).
Arguments Returns {A} a.
Arguments Throws {A} e.

(** ** The simulation state *)

Record gid_local_info := mk_gid_local_info {
  cell_index : nat;
  group_index : nat
}.

(** [cse_vector]: the events to inject, a list of (gid, events) entries. *)
Abbreviation cse_vector := (list (N * pse_vector)).

Section driver.
Context {CG C G : Type} `{!CellGroup CG, !Communicator C, !EventGenerator G}.

(** The members of [simulation_state] that [reset], [run] and
    [inject_events] read or write.  The two arrays of size 2 are pairs.
    The thread-private spike stores are the lists of the spikes they hold.
    The task system, the sampler handles and the two export callbacks
    (which only observe spikes) are left out. *)
Record simulation_state := mk_state {
  epoch_ : epoch;
  t_interval_ : time_type;
  cell_groups_ : list CG;
  event_generators_ : list (list G);
  gid_to_local_ : gmap N gid_local_info;
  communicator_ : C;
  pending_events_ : list pse_vector;
  event_lanes_ : list pse_vector * list pse_vector;
  local_spikes_ : list spike * list spike
}.

Definition set_epoch (e : epoch) (st : simulation_state) : simulation_state :=
  mk_state e (t_interval_ st) (cell_groups_ st) (event_generators_ st)
    (gid_to_local_ st) (communicator_ st) (pending_events_ st)
    (event_lanes_ st) (local_spikes_ st).

Definition set_cell_groups (gs : list CG) (st : simulation_state) : simulation_state :=
  mk_state (epoch_ st) (t_interval_ st) gs (event_generators_ st)
    (gid_to_local_ st) (communicator_ st) (pending_events_ st)
    (event_lanes_ st) (local_spikes_ st).

Definition set_event_generators (gens : list (list G)) (st : simulation_state)
  : simulation_state :=
  mk_state (epoch_ st) (t_interval_ st) (cell_groups_ st) gens
    (gid_to_local_ st) (communicator_ st) (pending_events_ st)
    (event_lanes_ st) (local_spikes_ st).

Definition set_communicator (c : C) (st : simulation_state) : simulation_state :=
  mk_state (epoch_ st) (t_interval_ st) (cell_groups_ st) (event_generators_ st)
    (gid_to_local_ st) c (pending_events_ st)
    (event_lanes_ st) (local_spikes_ st).

Definition set_pending_events (p : list pse_vector) (st : simulation_state)
  : simulation_state :=
  mk_state (epoch_ st) (t_interval_ st) (cell_groups_ st) (event_generators_ st)
    (gid_to_local_ st) (communicator_ st) p
    (event_lanes_ st) (local_spikes_ st).

Definition set_event_lanes_ (l : list pse_vector * list pse_vector)
    (st : simulation_state) : simulation_state :=
  mk_state (epoch_ st) (t_interval_ st) (cell_groups_ st) (event_generators_ st)
    (gid_to_local_ st) (communicator_ st) (pending_events_ st)
    l (local_spikes_ st).

Definition set_local_spikes_ (s : list spike * list spike)
    (st : simulation_state) : simulation_state :=
  mk_state (epoch_ st) (t_interval_ st) (cell_groups_ st) (event_generators_ st)
    (gid_to_local_ st) (communicator_ st) (pending_events_ st)
    (event_lanes_ st) s.

(** [epoch_id & 1], which selects one of the two buffers. *)
Definition parity (epoch_id : Z) : bool := negb (Z.land epoch_id 1 =? 0)%Z.

(** [event_lanes(epoch_id)] is [event_lanes_[epoch_id&1]]. *)
Definition event_lanes (epoch_id : Z) (st : simulation_state) : list pse_vector :=
  if parity epoch_id then (event_lanes_ st).2 else (event_lanes_ st).1.

Definition set_event_lanes (epoch_id : Z) (lanes : list pse_vector)
    (st : simulation_state) : simulation_state :=
  if parity epoch_id
  then set_event_lanes_ ((event_lanes_ st).1, lanes) st
  else set_event_lanes_ (lanes, (event_lanes_ st).2) st.

(** [local_spikes(epoch_id)] is [local_spikes_[epoch_id&1]]. *)
Definition local_spikes (epoch_id : Z) (st : simulation_state) : list spike :=
  if parity epoch_id then (local_spikes_ st).2 else (local_spikes_ st).1.

Definition set_local_spikes (epoch_id : Z) (spikes : list spike)
    (st : simulation_state) : simulation_state :=
  if parity epoch_id
  then set_local_spikes_ ((local_spikes_ st).1, spikes) st
  else set_local_spikes_ (spikes, (local_spikes_ st).2) st.

(** *** reset *)

Definition reset (st : simulation_state) : simulation_state :=
  let st := set_epoch epoch_default st in
  (* The state of the cell groups. *)
  let st := set_cell_groups (group_reset <$> cell_groups_ st) st in
  (* All pending events in the event lanes. *)
  let st := set_event_lanes_
    (vector_clear <$> (event_lanes_ st).1, vector_clear <$> (event_lanes_ st).2) st in
  (* All event generators. *)
  let st := set_event_generators
    ((λ lane : list G, generator_reset <$> lane) <$> event_generators_ st) st in
  let st := set_pending_events (vector_clear <$> pending_events_ st) st in
  let st := set_communicator (communicator_reset (communicator_ st)) st in
  let st := set_local_spikes_
    (vector_clear (local_spikes_ st).1, vector_clear (local_spikes_ st).2) st in
  set_epoch (epoch_reset (epoch_ st)) st.

(** *** The three tasks of run *)

(** Modelled from the spec: [util::subrange_view] is declared in a header
    that is not among the sources.  [group_queue_range(i)] is the range
    [begin, end) of the lanes owned by group [i]; the view is the lanes from
    [range.1] up to [range.2]. *)
Definition subrange_view (lanes : list pse_vector) (range : nat * nat)
  : list pse_vector :=
  take (range.2 - range.1) (drop range.1 lanes).

(** The body of the loop over the groups in [update], for group [i]: the
    group is advanced over its lanes, its spikes are inserted in the
    spike store and then cleared. *)
Definition update_group (current : epoch) (dt : time_type)
    (lanes : list pse_vector) (c : C) (i : nat) (group : CG) (store : list spike)
  : CG * list spike :=
  let queues := subrange_view lanes (group_queue_range c i) in
  let group := group_advance current dt queues group in
  let store := store ++ group_spikes group in
  (group_clear_spikes group, store).

Fixpoint update_groups (current : epoch) (dt : time_type)
    (lanes : list pse_vector) (c : C) (i : nat) (groups : list CG)
    (store : list spike) : list CG * list spike :=
  match groups with
  | [] => ([], store)
  | group :: groups' =>
      let '(group, store) := update_group current dt lanes c i group store in
      let '(groups', store) :=
        update_groups current dt lanes c (S i) groups' store in
      (group :: groups', store)
  end.

(** Update task: advance cell groups to end of current epoch and store
    spikes in [local_spikes_]. *)
Definition update (dt : time_type) (current : epoch) (st : simulation_state)
  : simulation_state :=
  let st := set_local_spikes (id current)
              (vector_clear (local_spikes (id current) st)) st in
  let '(groups, store) :=
    update_groups current dt (event_lanes (id current) st) (communicator_ st)
      0 (cell_groups_ st) (local_spikes (id current) st) in
  set_local_spikes (id current) store (set_cell_groups groups st).

(** Exchange task: gather the spikes of epoch [prev], exchange them across
    the ranks and deliver the events to the pending event vectors. *)
Definition exchange_task (prev : epoch) (st : simulation_state) : simulation_state :=
  let all_local_spikes := local_spikes (id prev) st in
  let '(global_spikes, c) := exchange all_local_spikes (communicator_ st) in
  let '(pending, c) := make_event_queues global_spikes (pending_events_ st) c in
  set_pending_events pending (set_communicator c st).

(** The body of the loop over the cells in [enqueue], for cell [i].  An
    index outside one of the vectors is undefined behaviour in the source
    (the constructor sizes them all to the number of local cells); the
    model leaves the state as it is. *)
Definition enqueue_cell (next : epoch) (st : simulation_state) (i : nat)
  : simulation_state :=
  match pending_events_ st !! i, event_lanes (id next - 1) st !! i,
        event_generators_ st !! i, event_lanes (id next) st !! i with
  | Some pending, Some old_events, Some generators, Some lane =>
      let pending := util_sort event_lt pending in
      let '(generators, lane) :=
        merge_cell_events (t0 next) (t1 next) old_events pending generators lane in
      let st := set_event_generators (<[i:=generators]> (event_generators_ st)) st in
      let st := set_event_lanes (id next)
                  (<[i:=lane]> (event_lanes (id next) st)) st in
      set_pending_events (alter vector_clear i (pending_events_ st)) st
  | _, _, _, _ => st
  end.

(** Enqueue task: build the event lanes of epoch [next]. *)
Definition enqueue (next : epoch) (st : simulation_state) : simulation_state :=
  foldl (enqueue_cell next) st (seq 0 (num_local_cells (communicator_ st))).

(** *** run *)

(** The [for (;;)] loop of [run].  Each unfolding is one iteration; the
    loop leaves with [Some] at the [break].  [None]: the iterations
    allowed by [fuel] did not reach the [break]. *)
Fixpoint run_loop (fuel : nat) (tfinal dt : time_type)
    (prev current next : epoch) (st : simulation_state)
  : option (epoch * epoch * simulation_state) :=
  match fuel with
  | O => None
  | S fuel =>
      let prev := current in
      let current := next in
      let next := next_epoch tfinal next (t_interval_ st) in
      if epoch_empty next then Some (prev, current, st)
      else
        let st := enqueue next (exchange_task prev st) in
        let st := update dt current st in
        run_loop fuel tfinal dt prev current next st
  end.

(** [simulation_state::run(tfinal, dt)]: the time reached and the new
    state. *)
Definition run (fuel : nat) (tfinal dt : time_type) (st : simulation_state)
  : option (time_type * simulation_state) :=
  if time_le tfinal (t1 (epoch_ st)) then Some (t1 (epoch_ st), st)
  else
    let prev := epoch_ st in
    let current := next_epoch tfinal prev (t_interval_ st) in
    let next := next_epoch tfinal current (t_interval_ st) in
    if epoch_empty next then
      let st := enqueue current st in
      let st := update dt current st in
      let st := exchange_task current st in
      Some (t1 current, set_epoch current st)
    else
      let st := enqueue current st in
      let st := enqueue next st in
      let st := update dt current st in
      match run_loop fuel tfinal dt prev current next st with
      | None => None
      | Some (prev, current, st) =>
          let st := exchange_task prev st in
          let st := update dt current st in
          let st := exchange_task current st in
          (* The current epoch is recorded for the next run() invocation. *)
          Some (t1 current, set_epoch current st)
      end.

(** *** inject_events *)

(** [pending_events_[i].push_back(e)]. *)
Definition push_pending (i : nat) (e : spike_event) (st : simulation_state)
  : simulation_state :=
  set_pending_events (alter (λ v, v ++ [e]) i (pending_events_ st)) st.

(** The body of the inner loop of [inject_events], when it does not
    throw. *)
Definition inject_event (gid : N) (e : spike_event) (st : simulation_state)
  : simulation_state :=
  match gid_to_local_ st !! gid with
  | Some lidx => push_pending (cell_index lidx) e st
  | None => st
  end.

(** The inner loop: the events of one entry.  A throw leaves the loops
    with the state as it is at that point. *)
Fixpoint inject_cell_events (gid : N) (evs : pse_vector) (st : simulation_state)
  : outcome unit * simulation_state :=
  match evs with
  | [] => (Returns (), st)
  | e :: evs' =>
      if time_lt (time e) (t1 (epoch_ st))
      then (Throws (bad_event_time (time e) (t1 (epoch_ st))), st)
      else inject_cell_events gid evs' (inject_event gid e st)
  end.

Fixpoint inject_events (events : cse_vector) (st : simulation_state)
  : outcome unit * simulation_state :=
  match events with
  | [] => (Returns (), st)
  | (gid, evs) :: events' =>
      match inject_cell_events gid evs st with
      | (Returns _, st) => inject_events events' st
      | (Throws e, st) => (Throws e, st)
      end
  end.

(** *** The public wrapper: simulation::run *)

Definition simulation_run (fuel : nat) (tfinal dt : time_type)
    (impl_ : simulation_state) : option (outcome time_type * simulation_state) :=
  if time_le dt 0
  then Some (Throws (domain_error "Finite time-step must be supplied."), impl_)
  else
    match run fuel tfinal dt impl_ with
    | Some (t, impl_) => Some (Returns t, impl_)
    | None => None
    end.
End driver.

(** ** Properties of event sequences *)

(** A sequence of events is time-sorted when the times of neighbours do not
    decrease. *)
Fixpoint time_sortedb (l : list spike_event) : bool :=
  match l with
  | [] => true
  | x :: l' =>
      match l' with
      | [] => true
      | y :: _ => time_le (time x) (time y) && time_sortedb l'
      end
  end.

Definition time_sorted (l : list spike_event) : Prop := time_sortedb l = true.

(** The order of events by time alone. *)
Definition event_time_le : relation spike_event := λ a b, time a <= time b.

(** A comparison of events refines the order by time when it never puts a
    later event before an earlier one. *)
Definition refines_time (lt : spike_event → spike_event → bool) : Prop :=
  ∀ a b, (lt a b = true → time a <= time b) ∧ (lt a b = false → time b <= time a).


(** The spans the generators yield for an interval, in generator order. *)
Definition generator_spans {G : Type} `{!EventGenerator G}
    (t_from t_to : time_type) (generators : list G) : list event_span :=
  (λ g, (events t_from t_to g).1) <$> generators.

(** The contract of a generator for the interval [t_from, t_to): the events
    it yields are time-sorted and lie inside the interval. *)
Definition yields_in_window {G : Type} `{!EventGenerator G}
    (t_from t_to : time_type) (g : G) : Prop :=
  time_sorted (events t_from t_to g).1
  ∧ Forall (λ e, t_from <= time e ∧ time e < t_to) (events t_from t_to g).1.

(** The entries of a call of [inject_events] in the order the two loops
    visit them. *)
Definition flatten_events (events : cse_vector) : list (N * spike_event) :=
  events ≫= (λ entry, (λ e, (entry.1, e)) <$> entry.2).

Section injection_sequences.
Context {CG C G : Type} `{!CellGroup CG, !Communicator C, !EventGenerator G}.
Abbreviation state := (simulation_state (CG:=CG) (C:=C) (G:=G)).

(** The pushes of a sequence of events none of which is rejected. *)
Definition inject_all (l : list (N * spike_event)) (st : state) : state :=
  foldl (λ st ge, inject_event ge.1 ge.2 st) st l.

(** The two loops of [inject_events] as one loop over the flattened
    entries. *)
Fixpoint inject_flat (l : list (N * spike_event)) (st : state)
  : outcome unit * state :=
  match l with
  | [] => (Returns (), st)
  | ge :: l' =>
      if time_lt (time ge.2) (t1 (epoch_ st))
      then (Throws (bad_event_time (time ge.2) (t1 (epoch_ st))), st)
      else inject_flat l' (inject_event ge.1 ge.2 st)
  end.
End injection_sequences.

(** The contract of the generators of a simulation: whatever the state of
    a generator and the interval asked for, the events it yields are
    time-sorted and lie inside the interval. *)
Definition generators_keep_contract (G : Type) `{!EventGenerator G} : Prop :=
  ∀ (t_from t_to : time_type) (g : G), yields_in_window t_from t_to g.

Section driver_properties.
Context {CG C G : Type} `{!CellGroup CG, !Communicator C, !EventGenerator G}.
Abbreviation state := (simulation_state (CG:=CG) (C:=C) (G:=G)).

(** Every lane of both lane buffers is time-sorted. *)
Definition lanes_sorted (st : state) : Prop :=
  Forall time_sorted (event_lanes_ st).1 ∧ Forall time_sorted (event_lanes_ st).2.

(** Every pending buffer is time-sorted. *)
Definition pending_sorted (st : state) : Prop :=
  Forall time_sorted (pending_events_ st).

(** One call of a public operation that changes the state: [run],
    [inject_events] (whether it returns or throws) or [reset]. *)
Inductive public_step : state → state → Prop :=
  | step_run fuel tfinal dt st r st' :
      simulation_run fuel tfinal dt st = Some (r, st') → public_step st st'
  | step_inject_events events st r st' :
      inject_events events st = (r, st') → public_step st st'
  | step_reset st :
      public_step st (reset st).

(** Successive calls [run(tfinal, dt)], given as the list of their
    arguments: the times they return and the last state.  [None] when a
    call throws or does not come back within [fuel] iterations. *)
Fixpoint run_calls (fuel : nat) (calls : list (time_type * time_type)) (st : state)
  : option (list time_type * state) :=
  match calls with
  | [] => Some ([], st)
  | (tfinal, dt) :: calls' =>
      match simulation_run fuel tfinal dt st with
      | Some (Returns t, st') =>
          match run_calls fuel calls' st' with
          | Some (ts, st'') => Some (t :: ts, st'')
          | None => None
          end
      | _ => None
      end
  end.

(** The times returned by successive calls, the first made when the
    recorded epoch ended at [t_prev]: each returned time is at least the
    one before, and is at most the call's [tfinal] unless [tfinal] is not
    after the time reached before, in which case that time is returned
    again. *)
Fixpoint returns_in_order (t_prev : time_type)
    (calls : list (time_type * time_type)) (ts : list time_type) : Prop :=
  match calls, ts with
  | [], [] => True
  | (tfinal, _) :: calls', t :: ts' =>
      t_prev <= t
      ∧ (if time_le tfinal t_prev then t = t_prev else t <= tfinal)
      ∧ returns_in_order t calls' ts'
  | _, _ => False
  end.
End driver_properties.

(** ** A small network, used to run the driver on concrete inputs *)

Module Demo.
(** A generator that delivers one given event. *)
Definition one_shot := spike_event.

#[export] Instance one_shot_generator : EventGenerator one_shot := {|
  events t_from t_to g :=
    (if time_le t_from (time g) && time_lt (time g) t_to then [g] else [], g);
  generator_reset g := g
|}.

(** A cell group of one cell that fires at the time of each event it is
    given, and keeps the spikes until they are cleared. *)
Record relay := mk_relay { relay_gid : N; relay_spikes : list spike }.

#[export] Instance relay_group : CellGroup relay := {|
  group_reset g := mk_relay (relay_gid g) [];
  group_advance ep dt queues g :=
    mk_relay (relay_gid g)
      (relay_spikes g ++
       ((λ e, mk_spike (relay_gid g) (time e)) <$>
          List.filter (λ e, time_le (t0 ep) (time e) && time_lt (time e) (t1 ep))
            (concat queues)));
  group_spikes g := relay_spikes g;
  group_clear_spikes g := mk_relay (relay_gid g) []
|}.

(** A communicator of a single rank: [ring n d] connects cell [i] to cell
    [i+1 mod n] with delay [d] and weight 1, one cell per group. *)
Record ring := mk_ring { ring_cells : nat; ring_delay : time_type; ring_spikes : nat }.

Definition ring_deliver (c : ring) (queues : list pse_vector) (s : spike)
  : list pse_vector :=
  alter (λ q, q ++ [mk_event 0 (spike_time s + ring_delay c) 1])
    ((S (N.to_nat (source s))) `mod` ring_cells c)%nat queues.

#[export] Instance ring_communicator : Communicator ring := {|
  num_local_cells c := ring_cells c;
  group_queue_range c i := (i, S i);
  exchange spikes c :=
    (spikes, mk_ring (ring_cells c) (ring_delay c) (ring_spikes c + length spikes));
  make_event_queues spikes queues c := (foldl (ring_deliver c) queues spikes, c);
  communicator_reset c := mk_ring (ring_cells c) (ring_delay c) 0
|}.

Definition ev (t : time_type) (w : Q) : spike_event := mk_event 0 t w.

(** Two cells with gids 0 and 1, minimum delay 2 (so the epoch interval is
    1), cell 0 driven by a generator with one event at time 0.5.  This is
    the state the constructor leaves. *)
Definition two_cells : simulation_state (CG:=relay) (C:=ring) (G:=one_shot) := {|
  epoch_ := epoch_default;
  t_interval_ := 1;
  cell_groups_ := [mk_relay 0 []; mk_relay 1 []];
  event_generators_ := [[ev (1#2) 1]; []];
  gid_to_local_ := {[ 0%N := mk_gid_local_info 0 0; 1%N := mk_gid_local_info 1 1 ]};
  communicator_ := mk_ring 2 2 0;
  pending_events_ := [[]; []];
  event_lanes_ := ([[]; []], [[]; []]);
  local_spikes_ := ([], [])
|}.

(** The state after [run(5, 0.1)] on [two_cells]: the recorded epoch ends
    at time 5. *)
Definition after_run : simulation_state (CG:=relay) (C:=ring) (G:=one_shot) :=
  match run 8 5 (1#10) two_cells with
  | Some (_, st) => st
  | None => two_cells
  end.

(** Then two events are injected for cell 1, the later one first. *)
Definition after_inject : simulation_state (CG:=relay) (C:=ring) (G:=one_shot) :=
  (inject_events [(1%N, [ev 7 1; ev 6 1])] after_run).2.
End Demo.


(** ** More of the driver: definitions *)

(** The events of a flattened call that are addressed to the local cell with
    index [i], in the order of the call. *)
Definition events_for_cell (gid_to_local : gmap N gid_local_info) (i : nat)
    (l : list (N * spike_event)) : list spike_event :=
  omap (λ ge : N * spike_event,
          match gid_to_local !! ge.1 with
          | Some lidx => if decide (cell_index lidx = i) then Some ge.2 else None
          | None => None
          end) l.

Section shape.
Context {CG C G : Type} `{!CellGroup CG, !Communicator C, !EventGenerator G}.
Abbreviation state := (simulation_state (CG:=CG) (C:=C) (G:=G)).

(** What the constructor fixes and no later operation changes: the map of
    the local gids, the epoch interval, the number of cell groups, the
    number of generators of every cell and the number of lanes of both lane
    buffers. *)
Definition same_shape (st st' : state) : Prop :=
  gid_to_local_ st' = gid_to_local_ st
  ∧ t_interval_ st' = t_interval_ st
  ∧ length (cell_groups_ st') = length (cell_groups_ st)
  ∧ length <$> event_generators_ st' = length <$> event_generators_ st
  ∧ length (event_lanes_ st').1 = length (event_lanes_ st).1
  ∧ length (event_lanes_ st').2 = length (event_lanes_ st).2.
End shape.

(** ** The constructor *)

(** [min_delay()] of the communicator, which the constructor reads. *)
Class CommunicatorDelay (C : Type) := {
  min_delay : C → time_type
}.

(** The gids of the groups of the decomposition, each paired with the index
    of its group, in the order the two loops of the constructor visit
    them. *)
Fixpoint tag_groups (grpidx : nat) (groups : list (list N)) : list (N * nat) :=
  match groups with
  | [] => []
  | gids :: groups' => ((λ gid, (gid, grpidx)) <$> gids) ++ tag_groups (S grpidx) groups'
  end.

Section constructor.
Context {CG C G : Type}
  `{!CellGroup CG, !Communicator C, !EventGenerator G, !CommunicatorDelay C}.
Abbreviation state := (simulation_state (CG:=CG) (C:=C) (G:=G)).

(** The body of the inner loop over the gids of a group: the gid is mapped to
    the running local index [lidx] and the index of the group, the
    generators the recipe gives for the gid get their labels resolved for
    that gid and are stored at [lidx], and [lidx] is incremented.  The
    recipe is the function [event_generators]; [resolve_label gid g] is [g]
    after [g.resolve_label] with the resolver made for [gid].  An [lidx]
    outside [event_generators_] is undefined behaviour in the source; the
    model leaves the vector as it is. *)
Definition index_gid (event_generators : N → list G) (resolve_label : N → G → G)
    (grpidx : nat) (acc : nat * gmap N gid_local_info * list (list G)) (gid : N)
  : nat * gmap N gid_local_info * list (list G) :=
  let '(lidx, gid_to_local, generators) := acc in
  let gid_to_local := <[gid := mk_gid_local_info lidx grpidx]> gid_to_local in
  let event_gens := resolve_label gid <$> event_generators gid in
  (S lidx, gid_to_local, <[lidx := event_gens]> generators).

(** The body of the outer loop over the groups. *)
Definition index_group (event_generators : N → list G) (resolve_label : N → G → G)
    (acc : nat * (nat * gmap N gid_local_info * list (list G))) (gids : list N)
  : nat * (nat * gmap N gid_local_info * list (list G)) :=
  let '(grpidx, inner) := acc in
  (S grpidx, foldl (index_gid event_generators resolve_label grpidx) inner gids).

(** The two loops as one loop over the tagged gids. *)
Definition index_tagged (event_generators : N → list G) (resolve_label : N → G → G)
    (acc : nat * gmap N gid_local_info * list (list G)) (l : list (N * nat))
  : nat * gmap N gid_local_info * list (list G) :=
  foldl (λ acc x, index_gid event_generators resolve_label x.2 acc x.1) acc l.

(** The constructor from the point where the cell groups and the
    communicator exist: [groups] holds the gids of each group of the
    decomposition, [cell_groups] and [communicator] are what the group
    factory and the communicator's constructor gave.  The buffers are sized
    to the number of local cells, the gids are indexed, the epoch clock is
    reset. *)
Definition construct (groups : list (list N)) (event_generators : N → list G)
    (resolve_label : N → G → G) (cell_groups : list CG) (communicator : C) : state :=
  let num_local_cells := num_local_cells communicator in
  let t_interval := min_delay communicator / 2 in
  let pending_events : list pse_vector := replicate num_local_cells [] in
  let generators : list (list G) := replicate num_local_cells [] in
  let '(_, (_, gid_to_local, generators)) :=
    foldl (index_group event_generators resolve_label)
      (0%nat, (0%nat, ∅, generators)) groups in
  let event_lanes : list pse_vector * list pse_vector :=
    (replicate num_local_cells [], replicate num_local_cells []) in
  mk_state (epoch_reset epoch_default) t_interval cell_groups generators
    gid_to_local communicator pending_events event_lanes ([], []).
End constructor.

(** ** get_probe_metadata *)

(** [cell_member_type]: a gid and an index on the cell; the driver reads the
    gid. *)
Record cell_member_type := mk_cell_member {
  gid : N;
  index : N
}.

(** [get_probe_metadata] of the cell group interface; [M] is the type of the
    metadata of a probe. *)
Class ProbeMetadata (CG M : Type) := {
  group_get_probe_metadata : CG → cell_member_type → list M
}.

(** What [get_probe_metadata] gives: the metadata, or the [std::out_of_range]
    that [cell_groups_.at] throws. *)
Inductive probe_outcome (M : Type) :=
  | ProbeReturns (metadata : list M)
  | ProbeOutOfRange.
Arguments ProbeReturns {M} metadata.
Arguments ProbeOutOfRange {M}.

Section probes.
Context {CG C G M : Type}
  `{!CellGroup CG, !Communicator C, !EventGenerator G, !ProbeMetadata CG M}.
Abbreviation state := (simulation_state (CG:=CG) (C:=C) (G:=G)).

Definition get_probe_metadata (probe_id : cell_member_type) (st : state)
  : probe_outcome M :=
  match gid_to_local_ st !! gid probe_id with
  | Some linfo =>
      match cell_groups_ st !! group_index linfo with
      | Some group => ProbeReturns (group_get_probe_metadata group probe_id)
      | None => ProbeOutOfRange
      end
  | None => ProbeReturns []
  end.
End probes.

(** ** The mechanism catalogue of the gpu back end *)

(** The [backend] struct of namespace [gpu]: [mech_map_] maps the name of a
    mechanism to the function that makes it.  The views, the vectors of
    weights and of node indices and the mechanisms are left abstract; the
    conversion of the two vectors to const views is part of the maker. *)
Section gpu_backend.
Context {View Weights Indices Mechanism : Type}.
Abbreviation maker_type := (View → View → Weights → Indices → Mechanism).

(** What [make_mechanism] gives: the mechanism, the [std::out_of_range] it
    throws, or the undefined behaviour of dereferencing [mech_map_.end()]. *)
Inductive mechanism_outcome :=
  | MechanismMade (m : Mechanism)
  | MechanismOutOfRange (what : string)
  | MechanismEndDereferenced.

(** [mech_map_.count(name)]: 1 when the key is in the map, 0 otherwise. *)
Definition map_count (mech_map_ : gmap string maker_type) (name : string) : nat :=
  match mech_map_ !! name with Some _ => 1%nat | None => 0%nat end.

Definition has_mechanism (mech_map_ : gmap string maker_type) (name : string) : bool :=
  (0 <? map_count mech_map_ name)%nat.

Definition make_mechanism (mech_map_ : gmap string maker_type) (name : string)
    (vec_v vec_i : View) (weights : Weights) (node_indices : Indices)
  : mechanism_outcome :=
  if negb (has_mechanism mech_map_ name)
  then MechanismOutOfRange ("no mechanism in database : " +:+ name)
  else
    match mech_map_ !! name with
    | Some maker => MechanismMade (maker vec_v vec_i weights node_indices)
    | None => MechanismEndDereferenced
    end.
End gpu_backend.
Arguments mechanism_outcome Mechanism : clear implicits.

(** ** run with the rounding of the time addition *)

(** [time_type] is a floating point type: the sum [t1 + t_interval_] that
    [next_epoch] takes is rounded.  The definitions below are those of
    [next_epoch], of the loop of [run] and of [run] with that sum given by
    [time_add]; with [Qplus] they are the ones above. *)
Section rounded_time.
Context {CG C G : Type} `{!CellGroup CG, !Communicator C, !EventGenerator G}.
Abbreviation state := (simulation_state (CG:=CG) (C:=C) (G:=G)).
Context (time_add : time_type → time_type → time_type).

Definition next_epoch_rounded (tfinal : time_type) (e : epoch) (interval : time_type)
  : epoch :=
  advance_to (std_min (time_add (t1 e) interval) tfinal) e.

Fixpoint run_loop_rounded (fuel : nat) (tfinal dt : time_type)
    (prev current next : epoch) (st : state)
  : option (epoch * epoch * state) :=
  match fuel with
  | O => None
  | S fuel =>
      let prev := current in
      let current := next in
      let next := next_epoch_rounded tfinal next (t_interval_ st) in
      if epoch_empty next then Some (prev, current, st)
      else
        let st := enqueue next (exchange_task prev st) in
        let st := update dt current st in
        run_loop_rounded fuel tfinal dt prev current next st
  end.

Definition run_rounded (fuel : nat) (tfinal dt : time_type) (st : state)
  : option (time_type * state) :=
  if time_le tfinal (t1 (epoch_ st)) then Some (t1 (epoch_ st), st)
  else
    let prev := epoch_ st in
    let current := next_epoch_rounded tfinal prev (t_interval_ st) in
    let next := next_epoch_rounded tfinal current (t_interval_ st) in
    if epoch_empty next then
      let st := enqueue current st in
      let st := update dt current st in
      let st := exchange_task current st in
      Some (t1 current, set_epoch current st)
    else
      let st := enqueue current st in
      let st := enqueue next st in
      let st := update dt current st in
      match run_loop_rounded fuel tfinal dt prev current next st with
      | None => None
      | Some (prev, current, st) =>
          let st := exchange_task prev st in
          let st := update dt current st in
          let st := exchange_task current st in
          Some (t1 current, set_epoch current st)
      end.
End rounded_time.

(** ** The update task in any order of the groups *)

(** [foreach_group_index] hands the groups to [parallel_for]: the order in
    which the groups are advanced and their spikes inserted in the spike
    store is not fixed.  [update_in_order order] is the update task with
    the groups taken in the order [order]; [update] above is the one that
    takes them by ascending index. *)
Section parallel_update.
Context {CG C G : Type} `{!CellGroup CG, !Communicator C, !EventGenerator G}.
Abbreviation state := (simulation_state (CG:=CG) (C:=C) (G:=G)).

(** One call of the functional of [update], for the group with index [i]. *)
Definition update_group_at (current : epoch) (dt : time_type)
    (lanes : list pse_vector) (c : C) (acc : list CG * list spike) (i : nat)
  : list CG * list spike :=
  match acc.1 !! i with
  | Some group =>
      let '(group, store) := update_group current dt lanes c i group acc.2 in
      (<[i:=group]> acc.1, store)
  | None => acc
  end.

Definition update_in_order (order : list nat) (dt : time_type) (current : epoch)
    (st : state) : state :=
  let st := set_local_spikes (id current)
              (vector_clear (local_spikes (id current) st)) st in
  let '(groups, store) :=
    foldl (update_group_at current dt (event_lanes (id current) st) (communicator_ st))
      (cell_groups_ st, local_spikes (id current) st) order in
  set_local_spikes (id current) store (set_cell_groups groups st).
End parallel_update.

(** ** More of the small network *)

Module Demo2.
Import Demo.

#[export] Instance ring_delay_is_min_delay : CommunicatorDelay ring := {|
  min_delay c := ring_delay c
|}.

(** The relay cell has one probe; its metadata is the gid of the cell. *)
#[export] Instance relay_probes : ProbeMetadata relay N := {|
  group_get_probe_metadata g probe_id := [relay_gid g]
|}.

(** The recipe of the small network: cell 0 has one generator. *)
Definition demo_generators (gid : N) : list one_shot :=
  if (gid =? 0)%N then [ev (1#2) 1] else [].

(** The simulation the constructor builds for two groups of one cell. *)
Definition constructed : simulation_state (CG:=relay) (C:=ring) (G:=one_shot) :=
  construct [[0%N]; [1%N]] demo_generators (λ _ g, g)
    [mk_relay 0 []; mk_relay 1 []] (mk_ring 2 2 0).

(** The small network with a minimum delay of zero. *)
Definition no_delay : simulation_state (CG:=relay) (C:=ring) (G:=one_shot) := {|
  epoch_ := epoch_default;
  t_interval_ := 0;
  cell_groups_ := [mk_relay 0 []; mk_relay 1 []];
  event_generators_ := [[ev (1#2) 1]; []];
  gid_to_local_ := {[ 0%N := mk_gid_local_info 0 0; 1%N := mk_gid_local_info 1 1 ]};
  communicator_ := mk_ring 2 0 0;
  pending_events_ := [[]; []];
  event_lanes_ := ([[]; []], [[]; []]);
  local_spikes_ := ([], [])
|}.

(** The small network with a minimum delay of 2/3, so that the epoch
    interval is 1/3. *)
Definition thirds : simulation_state (CG:=relay) (C:=ring) (G:=one_shot) := {|
  epoch_ := epoch_default;
  t_interval_ := 1#3;
  cell_groups_ := [mk_relay 0 []; mk_relay 1 []];
  event_generators_ := [[ev (1#2) 1]; []];
  gid_to_local_ := {[ 0%N := mk_gid_local_info 0 0; 1%N := mk_gid_local_info 1 1 ]};
  communicator_ := mk_ring 2 (2#3) 0;
  pending_events_ := [[]; []];
  event_lanes_ := ([[]; []], [[]; []]);
  local_spikes_ := ([], [])
|}.

(** A time addition that rounds the sum down to a multiple of 1/4. *)
Definition quarter_add (a b : time_type) : time_type :=
  inject_Z (Qfloor ((a + b) * 4)) * (1#4).

(** The small network with an event on the lane of each cell for the epoch
    from 0 to 1. *)
Definition both_driven : simulation_state (CG:=relay) (C:=ring) (G:=one_shot) := {|
  epoch_ := epoch_default;
  t_interval_ := 1;
  cell_groups_ := [mk_relay 0 []; mk_relay 1 []];
  event_generators_ := [[]; []];
  gid_to_local_ := {[ 0%N := mk_gid_local_info 0 0; 1%N := mk_gid_local_info 1 1 ]};
  communicator_ := mk_ring 2 2 0;
  pending_events_ := [[]; []];
  event_lanes_ := ([[ev (1#4) 1]; [ev (3#4) 1]], [[]; []]);
  local_spikes_ := ([mk_spike 7 9], [mk_spike 8 9])
|}.

(** The constructed simulation after [run(3, 0.1)] and an injection. *)
Definition constructed_later : simulation_state (CG:=relay) (C:=ring) (G:=one_shot) :=
  match run 8 3 (1#10) constructed with
  | Some (_, st) => (inject_events [(1%N, [ev 7 1])] st).2
  | None => constructed
  end.
End Demo2.
(** * Properties *)

(** ** Comparisons of times *)

Lemma time_lt_true (a b : time_type) : time_lt a b = true ↔ a < b.
Proof.
  unfold time_lt. rewrite Qlt_alt.
  destruct (a ?= b); split; congruence.
Qed.

Lemma time_lt_false (a b : time_type) : time_lt a b = false ↔ b <= a.
Proof.
  pose proof (time_lt_true a b) as H.
  destruct (time_lt a b); split; intros H'; try done.
  - apply Qle_not_lt in H'. destruct H'. by apply H.
  - apply Qnot_lt_le. intros Hlt. apply H in Hlt. done.
Qed.

Lemma time_le_true (a b : time_type) : time_le a b = true ↔ a <= b.
Proof. unfold time_le. rewrite negb_true_iff. apply time_lt_false. Qed.

Lemma time_le_false (a b : time_type) : time_le a b = false ↔ b < a.
Proof. unfold time_le. rewrite negb_false_iff. apply time_lt_true. Qed.

Lemma time_eq_true (a b : time_type) : time_eq a b = true ↔ a == b.
Proof. apply Qeq_bool_iff. Qed.

Lemma time_eq_false (a b : time_type) : time_eq a b = false ↔ ¬ a == b.
Proof.
  pose proof (time_eq_true a b) as H.
  destruct (time_eq a b); split; intros H'; try done.
  - destruct H'. by apply H.
  - intros Heq. by apply H in Heq.
Qed.

(** Turns the comparisons the code branches on into facts on rationals. *)
Ltac times :=
  repeat match goal with
  | H : time_lt _ _ = true |- _ => apply time_lt_true in H
  | H : time_lt _ _ = false |- _ => apply time_lt_false in H
  | H : time_le _ _ = true |- _ => apply time_le_true in H
  | H : time_le _ _ = false |- _ => apply time_le_false in H
  | H : time_eq _ _ = true |- _ => apply time_eq_true in H
  | H : time_eq _ _ = false |- _ => apply time_eq_false in H
  | |- time_lt _ _ = true => apply time_lt_true
  | |- time_lt _ _ = false => apply time_lt_false
  | |- time_le _ _ = true => apply time_le_true
  | |- time_le _ _ = false => apply time_le_false
  | |- time_eq _ _ = true => apply time_eq_true
  | |- time_eq _ _ = false => apply time_eq_false
  end.

(** Linear arithmetic on rationals, with the equalities between times read
    as equalities of rationals. *)
Ltac qlra :=
  repeat match goal with
  | H : @eq Q ?a ?b |- _ =>
      let H' := fresh in
      assert (H' : a == b) by (rewrite H; apply Qeq_refl); clear H
  end;
  lra.

Lemma std_min_cases (a b : time_type) :
  (b < a ∧ std_min a b = b) ∨ (a <= b ∧ std_min a b = a).
Proof.
  unfold std_min. destruct (time_lt b a) eqn:E; times; auto.
Qed.

(** ** Sorted sequences of events *)

#[local] Instance event_time_le_trans : Transitive event_time_le.
Proof. intros a b c. unfold event_time_le. apply Qle_trans. Qed.

Lemma time_sorted_cons x l :
  time_sorted (x :: l) ↔ HdRel event_time_le x l ∧ time_sorted l.
Proof.
  unfold time_sorted. destruct l as [|y l]; simpl.
  - split; [by split; [constructor|]|done].
  - rewrite andb_true_iff, time_le_true. split.
    + intros [? ?]. by split; [constructor|].
    + intros [Hhd ?]. by inversion Hhd.
Qed.

Lemma time_sorted_Sorted l : time_sorted l ↔ Sorted event_time_le l.
Proof.
  induction l as [|x l IH]; [by split; [constructor|]|].
  rewrite time_sorted_cons, IH. split.
  - intros [? ?]. by constructor.
  - intros H. by inversion H.
Qed.

Lemma time_sorted_strongly l : time_sorted l ↔ StronglySorted event_time_le l.
Proof.
  rewrite time_sorted_Sorted. split.
  - apply Sorted_StronglySorted. apply _.
  - apply StronglySorted_Sorted.
Qed.

Lemma event_lt_refines_time : refines_time event_lt.
Proof.
  intros a b. unfold event_lt. split.
  - rewrite orb_true_iff, andb_true_iff. intros [H|[H _]]; times; lra.
  - rewrite orb_false_iff. intros [H _]. by times.
Qed.

Lemma event_time_lt_refines_time : refines_time event_time_lt.
Proof. intros a b. unfold event_time_lt. split; intros H; times; lra. Qed.

(** ** The standard algorithms *)

Section std_algorithms_facts.
Context {A : Type} (lt : A → A → bool).

Lemma std_merge_nil_l l2 : std_merge lt [] l2 = l2.
Proof. by destruct l2. Qed.

Lemma std_merge_nil_r l1 : std_merge lt l1 [] = l1.
Proof. by destruct l1. Qed.

Lemma std_merge_cons x1 l1 x2 l2 :
  std_merge lt (x1 :: l1) (x2 :: l2) =
    if lt x2 x1 then x2 :: std_merge lt (x1 :: l1) l2
    else x1 :: std_merge lt l1 (x2 :: l2).
Proof. done. Qed.

Lemma std_merge_Permutation l1 l2 : std_merge lt l1 l2 ≡ₚ l1 ++ l2.
Proof.
  revert l2. induction l1 as [|x1 l1 IH1]; intros l2.
  { by rewrite std_merge_nil_l. }
  induction l2 as [|x2 l2 IH2].
  { by rewrite std_merge_nil_r, app_nil_r. }
  rewrite std_merge_cons. destruct (lt x2 x1).
  - rewrite IH2. by rewrite <- Permutation_middle.
  - by rewrite IH1.
Qed.


Lemma sort_insert_Permutation x l : sort_insert lt x l ≡ₚ x :: l.
Proof.
  induction l as [|y l IH]; simpl; [done|].
  destruct (lt x y); [done|]. rewrite IH. apply perm_swap.
Qed.

Lemma util_sort_Permutation l : util_sort lt l ≡ₚ l.
Proof.
  induction l as [|x l IH]; simpl; [done|].
  by rewrite sort_insert_Permutation, IH.
Qed.
End std_algorithms_facts.

Section time_order_facts.
Context (lt : spike_event → spike_event → bool) (Hlt : refines_time lt).

Lemma std_merge_sorted l1 l2 :
  StronglySorted event_time_le l1 → StronglySorted event_time_le l2 →
  StronglySorted event_time_le (std_merge lt l1 l2).
Proof.
  intros H1. revert l2. induction H1 as [|x1 l1 Hs1 IH1 Hx1]; intros l2 H2.
  { by rewrite std_merge_nil_l. }
  induction H2 as [|x2 l2 Hs2 IH2 Hx2].
  { rewrite std_merge_nil_r. by constructor. }
  rewrite std_merge_cons. destruct (lt x2 x1) eqn:E; apply Hlt in E.
  - constructor; [done|]. rewrite std_merge_Permutation.
    apply Forall_app. split; [|done].
    constructor; [done|]. eapply Forall_impl; [done|].
    intros y Hy. unfold event_time_le in *. lra.
  - constructor; [apply IH1; by constructor|]. rewrite std_merge_Permutation.
    apply Forall_app. split; [done|].
    constructor; [done|]. eapply Forall_impl; [done|].
    intros y Hy. unfold event_time_le in *. lra.
Qed.

Lemma sort_insert_sorted x l :
  StronglySorted event_time_le l → StronglySorted event_time_le (sort_insert lt x l).
Proof.
  induction 1 as [|y l Hs IH Hy]; simpl; [by repeat constructor|].
  destruct (lt x y) eqn:E; apply Hlt in E.
  - constructor; [by constructor|]. constructor; [done|].
    eapply Forall_impl; [done|]. intros z Hz. unfold event_time_le in *. lra.
  - constructor; [done|]. rewrite sort_insert_Permutation. by constructor.
Qed.

Lemma util_sort_sorted l : StronglySorted event_time_le (util_sort lt l).
Proof.
  induction l as [|x l IH]; simpl; [constructor|]. by apply sort_insert_sorted.
Qed.
End time_order_facts.

(** ** The events of one time *)







Section at_time_merge.
Context (lt : spike_event → spike_event → bool) (Hlt : refines_time lt).

End at_time_merge.


(** ** The K-way merge of spans *)

Lemma tree_merge_Permutation sources :
  foldr (std_merge event_time_lt) [] sources ≡ₚ concat sources.
Proof.
  induction sources as [|s sources IH]; simpl; [done|].
  by rewrite std_merge_Permutation, IH.
Qed.

Lemma tree_merge_sorted sources :
  Forall (StronglySorted event_time_le) sources →
  StronglySorted event_time_le (foldr (std_merge event_time_lt) [] sources).
Proof.
  induction 1 as [|s sources Hs _ IH]; simpl; [constructor|].
  by apply std_merge_sorted; [apply event_time_lt_refines_time|..].
Qed.


(** ** Splitting a sorted range *)

Lemma split_sorted_range_spec l v :
  StronglySorted event_time_le l →
  l = (split_sorted_range l v event_time_less).1
        ++ (split_sorted_range l v event_time_less).2
  ∧ Forall (λ e, time e < v) (split_sorted_range l v event_time_less).1
  ∧ Forall (λ e, v <= time e) (split_sorted_range l v event_time_less).2.
Proof.
  unfold split_sorted_range. simpl. intros Hs.
  split; [by rewrite take_drop|].
  induction Hs as [|x l Hs IH Hx]; simpl; [done|].
  unfold event_time_less at 1 3. destruct (time_lt (time x) v) eqn:E; times; simpl.
  - destruct IH as [IH1 IH2]. split; [by constructor|done].
  - split; [done|]. constructor; [done|]. eapply Forall_impl; [done|].
    intros y Hy. unfold event_time_le in Hy. simpl. lra.
Qed.

Lemma split_sorted_range_sorted l v :
  StronglySorted event_time_le l →
  StronglySorted event_time_le (split_sorted_range l v event_time_less).1
  ∧ StronglySorted event_time_le (split_sorted_range l v event_time_less).2.
Proof.
  intros Hs. destruct (split_sorted_range_spec l v Hs) as [Heq _].
  rewrite Heq in Hs. apply StronglySorted_app in Hs. tauto.
Qed.

(** ** merge_cell_events *)

Section merge_facts.
Context {G : Type} `{!EventGenerator G}.

Lemma push_generator_spans_spec t_from t_to (generators : list G) spanbuf :
  push_generator_spans t_from t_to generators spanbuf =
    ((λ g, (events t_from t_to g).2) <$> generators,
     spanbuf ++ filter (λ s, s ≠ []) (generator_spans t_from t_to generators)).
Proof.
  revert spanbuf. induction generators as [|g gs IH]; intros spanbuf; simpl.
  { by rewrite app_nil_r. }
  destruct (events t_from t_to g) as [evs g'] eqn:Eg. rewrite IH.
  unfold generator_spans. cbn [fst snd]. rewrite filter_cons.
  destruct evs as [|e evs]; simpl; [done|]. by rewrite <- app_assoc.
Qed.

(** The output of [merge_cell_events], by cases on the generators. *)
Lemma merge_cell_events_out t_from t_to old_events pending (generators : list G)
    new_events :
  (merge_cell_events t_from t_to old_events pending generators new_events).2 =
    let old_events := (split_sorted_range old_events t_from event_time_less).2 in
    match generators with
    | [] => std_merge event_lt pending old_events
    | _ :: _ =>
        let old_split := split_sorted_range old_events t_to event_time_less in
        let pending_split := split_sorted_range pending t_to event_time_less in
        foldr (std_merge event_time_lt) []
          ([old_split.1; pending_split.1]
             ++ filter (λ s, s ≠ []) (generator_spans t_from t_to generators))
        ++ std_merge event_lt pending_split.2 old_split.2
    end.
Proof.
  unfold merge_cell_events. destruct generators as [|g gs]; [done|].
  cbv zeta. change (negb (bool_decide (g :: gs = []))) with true. cbv iota.
  rewrite push_generator_spans_spec. unfold tree_merge_events, vector_clear.
  cbn [snd app]. by rewrite take_ge by done.
Qed.

Lemma generator_spans_sorted t_from t_to (generators : list G) :
  Forall (yields_in_window t_from t_to) generators →
  Forall (StronglySorted event_time_le)
    (filter (λ s, s ≠ []) (generator_spans t_from t_to generators))
  ∧ Forall (Forall (λ e, t_from <= time e ∧ time e < t_to))
    (filter (λ s, s ≠ []) (generator_spans t_from t_to generators)).
Proof.
  intros Hgen. split; apply Forall_forall; intros s Hs;
    apply list_elem_of_filter in Hs as [_ Hs];
    apply list_elem_of_fmap in Hs as (g & -> & Hg);
    rewrite Forall_forall in Hgen; destruct (Hgen g Hg) as [Hsorted Hwin];
    [by apply time_sorted_strongly|done].
Qed.


(** The output is time-sorted when the two input ranges are and the
    generators keep their contract. *)
Lemma merge_cell_events_sorted t_from t_to old_events pending
    (generators : list G) new_events :
  time_sorted old_events → time_sorted pending →
  Forall (yields_in_window t_from t_to) generators →
  time_sorted
    (merge_cell_events t_from t_to old_events pending generators new_events).2.
Proof.
  rewrite !time_sorted_strongly, merge_cell_events_out. intros Hold Hpend Hgen.
  cbv zeta.
  destruct (split_sorted_range_sorted old_events t_from Hold) as [_ Hold1].
  set (old1 := (split_sorted_range old_events t_from event_time_less).2) in *.
  destruct generators as [|g gs].
  { by apply std_merge_sorted; [apply event_lt_refines_time|..]. }
  destruct (split_sorted_range_sorted old1 t_to Hold1) as [Ho1 Ho2].
  destruct (split_sorted_range_sorted pending t_to Hpend) as [Hp1 Hp2].
  destruct (split_sorted_range_spec old1 t_to Hold1) as (_ & Ho1lt & Ho2ge).
  destruct (split_sorted_range_spec pending t_to Hpend) as (_ & Hp1lt & Hp2ge).
  destruct (generator_spans_sorted _ _ _ Hgen) as [Hgs Hgw].
  apply StronglySorted_app_2.
  - intros x1 x2 Hx1 Hx2. unfold event_time_le.
    assert (time x1 < t_to) as H1.
    { revert x1 Hx1. apply Forall_forall. rewrite tree_merge_Permutation.
      apply Forall_concat. repeat (constructor; [done|]).
      eapply Forall_impl; [done|]. intros s Hs. eapply Forall_impl; [done|].
      simpl. tauto. }
    assert (t_to <= time x2) as H2.
    { revert x2 Hx2. apply Forall_forall. rewrite std_merge_Permutation.
      by apply Forall_app. }
    lra.
  - apply tree_merge_sorted. by repeat (constructor; [done|]).
  - by apply std_merge_sorted; [apply event_lt_refines_time|..].
Qed.

(** C10: [merge_cell_events] clears the output vector before it writes:
    two calls with the same interval, ranges and generators give the same
    output (and leave the generators in the same state) whatever the output
    vectors held before. *)
Theorem merge_cell_events_ignores_prior_output t_from t_to old_events pending
    (generators : list G) (out1 out2 : pse_vector) :
  merge_cell_events t_from t_to old_events pending generators out1
    = merge_cell_events t_from t_to old_events pending generators out2.
Proof.
  unfold merge_cell_events.
  by change (vector_clear out1) with (vector_clear out2).
Qed.

(** C2 (as amended): for time-sorted [old_events] and [pending], an
    interval with [t_from <= t_to], generators that yield time-sorted events
    inside the interval, and no pending event before [t_from] (only the
    prefix of [old_events] before [t_from] is dropped), the output is
    time-sorted, every event of it has a time of at least [t_from], and
    every input event with a time of at least [t_to] is in it. *)
Theorem merge_cell_events_guarantees t_from t_to old_events pending
    (generators : list G) new_events :
  time_sorted old_events → time_sorted pending →
  t_from <= t_to →
  Forall (λ e, t_from <= time e) pending →
  Forall (yields_in_window t_from t_to) generators →
  time_sorted
    (merge_cell_events t_from t_to old_events pending generators new_events).2
  ∧ Forall (λ e, t_from <= time e)
      (merge_cell_events t_from t_to old_events pending generators new_events).2
  ∧ ∀ e, e ∈ old_events ∨ e ∈ pending → t_to <= time e →
      e ∈ (merge_cell_events t_from t_to old_events pending generators new_events).2.
Proof.
  intros Hold Hpend Hft Hpfrom Hgen.
  split; [by apply merge_cell_events_sorted|].
  rewrite merge_cell_events_out. cbv zeta.
  apply time_sorted_strongly in Hold, Hpend.
  destruct (split_sorted_range_spec old_events t_from Hold) as (Hoeq & Ho0lt & Ho1ge).
  destruct (split_sorted_range_sorted old_events t_from Hold) as [_ Hold1].
  set (old0 := (split_sorted_range old_events t_from event_time_less).1) in *.
  set (old1 := (split_sorted_range old_events t_from event_time_less).2) in *.
  assert (Hin_old : ∀ e, e ∈ old_events → t_to <= time e → e ∈ old1).
  { intros e He Hte. rewrite Hoeq in He. apply elem_of_app in He as [He|He]; [|done].
    rewrite Forall_forall in Ho0lt. apply Ho0lt in He. lra. }
  destruct generators as [|g gs].
  { split.
    - rewrite std_merge_Permutation. by apply Forall_app.
    - intros e He Hte. rewrite std_merge_Permutation. apply elem_of_app.
      destruct He as [He|He]; [right; by apply Hin_old|by left]. }
  destruct (split_sorted_range_spec old1 t_to Hold1) as (Ho1eq & Ho1lt & Ho2ge).
  destruct (split_sorted_range_spec pending t_to Hpend) as (Hpeq & Hp1lt & Hp2ge).
  destruct (generator_spans_sorted _ _ _ Hgen) as [_ Hgw].
  set (oin := (split_sorted_range old1 t_to event_time_less).1) in *.
  set (otail := (split_sorted_range old1 t_to event_time_less).2) in *.
  set (pin := (split_sorted_range pending t_to event_time_less).1) in *.
  set (ptail := (split_sorted_range pending t_to event_time_less).2) in *.
  rewrite Ho1eq in Ho1ge. apply Forall_app in Ho1ge as [Hoin Hotail].
  rewrite Hpeq in Hpfrom. apply Forall_app in Hpfrom as [Hpin Hptail].
  split.
  - apply Forall_app. split.
    + rewrite tree_merge_Permutation. apply Forall_concat.
      repeat (constructor; [done|]).
      eapply Forall_impl; [done|]. intros s Hs. eapply Forall_impl; [done|].
      simpl. tauto.
    + rewrite std_merge_Permutation. by apply Forall_app.
  - intros e He Hte. apply elem_of_app. right.
    rewrite std_merge_Permutation. apply elem_of_app. destruct He as [He|He].
    + right. apply Hin_old in He; [|done]. rewrite Ho1eq in He.
      apply elem_of_app in He as [He|He]; [|done].
      rewrite Forall_forall in Ho1lt. apply Ho1lt in He. lra.
    + left. rewrite Hpeq in He. apply elem_of_app in He as [He|He]; [|done].
      rewrite Forall_forall in Hp1lt. apply Hp1lt in He. lra.
Qed.

End merge_facts.

(** ** Injection of events *)

Section injection.
Context {CG C G : Type} `{!CellGroup CG, !Communicator C, !EventGenerator G}.
Abbreviation state := (simulation_state (CG:=CG) (C:=C) (G:=G)).

Lemma inject_event_epoch gid e (st : state) :
  epoch_ (inject_event gid e st) = epoch_ st.
Proof. unfold inject_event. by destruct (gid_to_local_ st !! gid). Qed.

Lemma inject_event_gid_to_local gid e (st : state) :
  gid_to_local_ (inject_event gid e st) = gid_to_local_ st.
Proof. unfold inject_event. by destruct (gid_to_local_ st !! gid). Qed.

Lemma inject_event_foreign gid e (st : state) :
  gid_to_local_ st !! gid = None → inject_event gid e st = st.
Proof. unfold inject_event. by intros ->. Qed.

Lemma inject_flat_app l1 l2 (st : state) :
  inject_flat (l1 ++ l2) st =
    match inject_flat l1 st with
    | (Returns _, st') => inject_flat l2 st'
    | (Throws e, st') => (Throws e, st')
    end.
Proof.
  revert st. induction l1 as [|ge l1 IH]; intros st; simpl; [done|].
  destruct (time_lt _ _); [done|]. apply IH.
Qed.

Lemma inject_cell_events_flat gid evs (st : state) :
  inject_cell_events gid evs st = inject_flat ((λ e, (gid, e)) <$> evs) st.
Proof.
  revert st. induction evs as [|e evs IH]; intros st; simpl; [done|].
  destruct (time_lt _ _); [done|]. apply IH.
Qed.

Lemma inject_events_flat events (st : state) :
  inject_events events st = inject_flat (flatten_events events) st.
Proof.
  revert st. induction events as [|[gid evs] events IH]; intros st; [done|].
  unfold flatten_events. simpl. fold (flatten_events events).
  rewrite inject_flat_app, <- inject_cell_events_flat.
  destruct (inject_cell_events gid evs st) as [[[]|e] st']; [apply IH|done].
Qed.

Lemma flatten_events_elem events gid evs e :
  (gid, evs) ∈ events → e ∈ evs → (gid, e) ∈ flatten_events events.
Proof.
  intros Hentry He. unfold flatten_events.
  apply list_elem_of_bind. exists (gid, evs). split; [|done].
  simpl. apply list_elem_of_fmap. by exists e.
Qed.

(** A flat sequence with a past-time event is injected up to the first such
    event, where the loop throws. *)
Lemma inject_flat_rejects l (st : state) ge :
  ge ∈ l → time ge.2 < t1 (epoch_ st) →
  ∃ pre bad post,
    l = pre ++ bad :: post
    ∧ Forall (λ ge, t1 (epoch_ st) <= time ge.2) pre
    ∧ time bad.2 < t1 (epoch_ st)
    ∧ inject_flat l st =
        (Throws (bad_event_time (time bad.2) (t1 (epoch_ st))), inject_all pre st).
Proof.
  revert st. induction l as [|x l IH]; intros st Hin Hlt.
  { by apply elem_of_nil in Hin. }
  simpl. destruct (time_lt (time x.2) (t1 (epoch_ st))) eqn:Ex; times.
  - exists [], x, l. by repeat split.
  - apply elem_of_cons in Hin as [->|Hin]; [lra|].
    destruct (IH (inject_event x.1 x.2 st) Hin) as (pre & bad & post & -> & Hpre & Hbad & Heq).
    { by rewrite inject_event_epoch. }
    rewrite inject_event_epoch in *.
    exists (x :: pre), bad, post. repeat split; auto.
Qed.

(** A flat sequence without past-time events is injected whole. *)
Lemma inject_flat_accepts l (st : state) :
  Forall (λ ge, t1 (epoch_ st) <= time ge.2) l →
  inject_flat l st = (Returns (), inject_all l st).
Proof.
  revert st. induction l as [|x l IH]; intros st Hall; [done|].
  apply Forall_cons in Hall as [Hx Hall]. simpl.
  destruct (time_lt (time x.2) (t1 (epoch_ st))) eqn:Ex; times; [lra|].
  apply IH. by rewrite inject_event_epoch.
Qed.

(** An event for a foreign gid that is not in the past has no effect on a
    flat sequence. *)
Lemma inject_flat_skip_foreign l1 l2 gid e (st : state) :
  gid_to_local_ st !! gid = None → t1 (epoch_ st) <= time e →
  inject_flat (l1 ++ (gid, e) :: l2) st = inject_flat (l1 ++ l2) st.
Proof.
  revert st. induction l1 as [|x l1 IH]; intros st Hgid Ht; simpl.
  - destruct (time_lt (time e) (t1 (epoch_ st))) eqn:Ex; times; [lra|].
    by rewrite inject_event_foreign.
  - destruct (time_lt _ _); [done|].
    apply IH; by rewrite ?inject_event_gid_to_local, ?inject_event_epoch.
Qed.

(** Injection only touches the pending buffers, and keeps their number. *)
Lemma inject_event_frame gid e (st : state) :
  epoch_ (inject_event gid e st) = epoch_ st
  ∧ event_lanes_ (inject_event gid e st) = event_lanes_ st
  ∧ local_spikes_ (inject_event gid e st) = local_spikes_ st
  ∧ cell_groups_ (inject_event gid e st) = cell_groups_ st
  ∧ communicator_ (inject_event gid e st) = communicator_ st
  ∧ event_generators_ (inject_event gid e st) = event_generators_ st
  ∧ length (pending_events_ (inject_event gid e st)) = length (pending_events_ st).
Proof.
  unfold inject_event. destruct (gid_to_local_ st !! gid); simpl; [|done].
  by rewrite length_alter.
Qed.

Lemma inject_all_frame l (st : state) :
  epoch_ (inject_all l st) = epoch_ st
  ∧ event_lanes_ (inject_all l st) = event_lanes_ st
  ∧ local_spikes_ (inject_all l st) = local_spikes_ st
  ∧ cell_groups_ (inject_all l st) = cell_groups_ st
  ∧ communicator_ (inject_all l st) = communicator_ st
  ∧ event_generators_ (inject_all l st) = event_generators_ st
  ∧ length (pending_events_ (inject_all l st)) = length (pending_events_ st).
Proof.
  revert st. induction l as [|x l IH]; intros st; [done|].
  unfold inject_all in *. simpl.
  destruct (IH (inject_event x.1 x.2 st)) as (-> & -> & -> & -> & -> & -> & ->).
  apply inject_event_frame.
Qed.

Lemma fmap_app_nil_r {A} (o : option (list A)) : (λ p, p ++ []) <$> o = o.
Proof. destruct o; simpl; [|done]. by rewrite app_nil_r. Qed.

Lemma inject_event_pending gid e (st : state) i :
  pending_events_ (inject_event gid e st) !! i
    = (λ p, p ++ events_for_cell (gid_to_local_ st) i [(gid, e)])
        <$> pending_events_ st !! i.
Proof.
  unfold inject_event, events_for_cell. simpl.
  destruct (gid_to_local_ st !! gid) as [lidx|]; simpl.
  - destruct (decide (cell_index lidx = i)) as [<-|Hne].
    + by rewrite list_lookup_alter_eq.
    + by rewrite list_lookup_alter_ne, fmap_app_nil_r.
  - by rewrite fmap_app_nil_r.
Qed.

Lemma inject_all_gid_to_local l (st : state) :
  gid_to_local_ (inject_all l st) = gid_to_local_ st
  ∧ t_interval_ (inject_all l st) = t_interval_ st.
Proof.
  revert st. induction l as [|x l IH]; intros st; [done|].
  unfold inject_all in *. simpl. destruct (IH (inject_event x.1 x.2 st)) as [-> ->].
  unfold inject_event. by destruct (gid_to_local_ st !! x.1).
Qed.

Lemma inject_all_pending l (st : state) i :
  pending_events_ (inject_all l st) !! i
    = (λ p, p ++ events_for_cell (gid_to_local_ st) i l) <$> pending_events_ st !! i.
Proof.
  revert st. induction l as [|x l IH]; intros st.
  { unfold inject_all, events_for_cell. simpl. by rewrite fmap_app_nil_r. }
  change (inject_all (x :: l) st) with (inject_all l (inject_event x.1 x.2 st)).
  rewrite IH, inject_event_pending, inject_event_gid_to_local.
  change (x :: l) with ([x] ++ l). unfold events_for_cell at 3.
  rewrite omap_app. fold (events_for_cell (gid_to_local_ st) i [x]).
  fold (events_for_cell (gid_to_local_ st) i l).
  destruct x as [gid e]. simpl.
  destruct (pending_events_ st !! i); simpl; [|done]. by rewrite <- app_assoc.
Qed.

(** C1 (as amended): when some event of the call has a time before the end
    of the recorded epoch, [inject_events] throws [bad_event_time] at the
    first such event in iteration order.  No event at or after it is
    appended; the events before it have been appended to the pending buffers
    of their local cells: the buffer of every cell is its old content
    followed by the events of that part of the call that are addressed to
    the cell, in call order.  So the pending buffers are as before only when
    no event for a local cell precedes the first past-time event.  Nothing
    else of the state has changed. *)
Theorem inject_events_rejects_past events (st : state) gid evs e :
  (gid, evs) ∈ events → e ∈ evs → time e < t1 (epoch_ st) →
  ∃ pre bad post st',
    flatten_events events = pre ++ bad :: post
    ∧ Forall (λ ge, t1 (epoch_ st) <= time ge.2) pre
    ∧ time bad.2 < t1 (epoch_ st)
    ∧ inject_events events st =
        (Throws (bad_event_time (time bad.2) (t1 (epoch_ st))), st')
    ∧ (∀ i, pending_events_ st' !! i
            = (λ p, p ++ events_for_cell (gid_to_local_ st) i pre)
                <$> pending_events_ st !! i)
    ∧ (pending_events_ st' = pending_events_ st
       ↔ ∀ i, is_Some (pending_events_ st !! i) →
              events_for_cell (gid_to_local_ st) i pre = [])
    ∧ length (pending_events_ st') = length (pending_events_ st)
    ∧ epoch_ st' = epoch_ st
    ∧ event_lanes_ st' = event_lanes_ st
    ∧ local_spikes_ st' = local_spikes_ st
    ∧ cell_groups_ st' = cell_groups_ st
    ∧ communicator_ st' = communicator_ st
    ∧ event_generators_ st' = event_generators_ st
    ∧ gid_to_local_ st' = gid_to_local_ st
    ∧ t_interval_ st' = t_interval_ st.
Proof.
  intros Hentry He Hlt.
  destruct (inject_flat_rejects (flatten_events events) st (gid, e))
    as (pre & bad & post & Hfl & Hpre & Hbad & Heq);
    [by eapply flatten_events_elem|done|].
  exists pre, bad, post, (inject_all pre st). rewrite inject_events_flat.
  do 4 (split; [done|]).
  pose proof (inject_all_pending pre st) as Hpending.
  destruct (inject_all_frame pre st) as (? & ? & ? & ? & ? & ? & ?).
  destruct (inject_all_gid_to_local pre st) as [? ?].
  split; [done|]. split; [|done].
  split.
  - intros Hsame i [p Hp]. specialize (Hpending i).
    rewrite Hsame, Hp in Hpending. simpl in Hpending.
    injection Hpending as Hpending.
    apply (app_inv_head p). by rewrite app_nil_r.
  - intros Hnone. apply list_eq. intros i. rewrite Hpending.
    destruct (pending_events_ st !! i) as [p|] eqn:Hp; simpl; [|done].
    rewrite Hnone by (by rewrite Hp). by rewrite app_nil_r.
Qed.

(** C9: the past-time check comes before the locality check.  An event of
    the call with a time before the end of the recorded epoch makes
    [inject_events] throw also when its gid is not a local cell; an event
    for a foreign gid with a time not before that end is dropped: the call
    ends as it does without that event, with the same outcome and the same
    state, and a call of such events only returns and leaves the state as
    it is. *)
Theorem inject_events_checks_time_before_locality events (st : state) :
  (∀ gid evs e,
     gid_to_local_ st !! gid = None →
     (gid, evs) ∈ events → e ∈ evs → time e < t1 (epoch_ st) →
     ∃ t, (inject_events events st).1 = Throws (bad_event_time t (t1 (epoch_ st)))
          ∧ t < t1 (epoch_ st))
  ∧ (∀ before after gid evs1 evs2 e,
     gid_to_local_ st !! gid = None → t1 (epoch_ st) <= time e →
     events = before ++ (gid, evs1 ++ e :: evs2) :: after →
     inject_events events st =
       inject_events (before ++ (gid, evs1 ++ evs2) :: after) st)
  ∧ ((∀ gid evs, (gid, evs) ∈ events →
        gid_to_local_ st !! gid = None
        ∧ Forall (λ e, t1 (epoch_ st) <= time e) evs) →
     inject_events events st = (Returns (), st)).
Proof.
  split; [|split].
  - intros gid evs e _ Hentry He Hlt.
    destruct (inject_flat_rejects (flatten_events events) st (gid, e))
      as (pre & bad & post & Hfl & Hpre & Hbad & Heq);
      [by eapply flatten_events_elem|done|].
    exists (time bad.2). by rewrite inject_events_flat, Heq.
  - intros before after gid evs1 evs2 e Hgid Ht ->.
    rewrite !inject_events_flat. unfold flatten_events.
    rewrite !bind_app, !bind_cons. simpl.
    rewrite !fmap_app, fmap_cons, <- !app_assoc. simpl.
    rewrite !(app_assoc (before ≫= _)).
    by apply inject_flat_skip_foreign.
  - intros Hall. rewrite inject_events_flat.
    assert (Hfl : Forall (λ ge, gid_to_local_ st !! ge.1 = None
                            ∧ t1 (epoch_ st) <= time ge.2) (flatten_events events)).
    { apply Forall_forall. intros [gid e] Hin. unfold flatten_events in Hin.
      apply list_elem_of_bind in Hin as ([gid' evs] & Hin & Hentry).
      simpl in Hin. apply list_elem_of_fmap in Hin as (e' & [= -> ->] & He).
      destruct (Hall _ _ Hentry) as [Hgid Hevs]. split; [done|].
      rewrite Forall_forall in Hevs. by apply Hevs. }
    clear Hall. induction Hfl as [|[gid e] l [Hgid Ht] Hfl IH]; [done|].
    simpl in *. destruct (time_lt (time e) (t1 (epoch_ st))) eqn:Ex; times; [lra|].
    by rewrite inject_event_foreign.
Qed.
End injection.

(** ** reset and the wrapper of run *)

Section reset_and_run.
Context {CG C G : Type} `{!CellGroup CG, !Communicator C, !EventGenerator G}.
Abbreviation state := (simulation_state (CG:=CG) (C:=C) (G:=G)).

Lemma fmap_vector_clear {A} (l : list (list A)) :
  vector_clear <$> l = replicate (length l) [].
Proof. induction l as [|x l IH]; [done|]. simpl. by rewrite <- IH. Qed.

(** C8: after [reset()] the epoch clock is zero, every cell group has been
    reset, every lane of both lane buffers is empty, every event generator
    has been reset, every pending buffer is empty, the communicator has
    been reset and both spike stores are empty.  The number of lanes and of
    pending buffers, the epoch interval and the map of the local gids are
    as before. *)
Theorem reset_clears_state (st : state) :
  epoch_ (reset st) = mk_epoch 0 0 0
  ∧ cell_groups_ (reset st) = group_reset <$> cell_groups_ st
  ∧ (event_lanes_ (reset st)).1 = replicate (length (event_lanes_ st).1) []
  ∧ (event_lanes_ (reset st)).2 = replicate (length (event_lanes_ st).2) []
  ∧ event_generators_ (reset st)
      = (λ lane : list G, generator_reset <$> lane) <$> event_generators_ st
  ∧ pending_events_ (reset st) = replicate (length (pending_events_ st)) []
  ∧ communicator_ (reset st) = communicator_reset (communicator_ st)
  ∧ local_spikes_ (reset st) = ([], [])
  ∧ t_interval_ (reset st) = t_interval_ st
  ∧ gid_to_local_ (reset st) = gid_to_local_ st.
Proof.
  unfold reset. simpl. by rewrite !fmap_vector_clear.
Qed.

Lemma reset_clears_lanes (st : state) :
  (event_lanes_ (reset st)).1 = replicate (length (event_lanes_ st).1) []
  ∧ (event_lanes_ (reset st)).2 = replicate (length (event_lanes_ st).2) [].
Proof. unfold reset. simpl. by rewrite !fmap_vector_clear. Qed.

(** C7: [simulation::run(tfinal, dt)] throws the domain error exactly when
    [dt <= 0]: with [dt <= 0] it throws and leaves the state as it is, and
    with [dt > 0] it is [simulation_state::run], which throws nothing
    itself. *)
Theorem run_throws_iff_dt_not_positive fuel tfinal dt (st : state) :
  (dt <= 0 →
     simulation_run fuel tfinal dt st =
       Some (Throws (domain_error "Finite time-step must be supplied."), st))
  ∧ (0 < dt →
     simulation_run fuel tfinal dt st =
       (λ r, (Returns r.1, r.2)) <$> run fuel tfinal dt st)
  ∧ (∀ e st', simulation_run fuel tfinal dt st = Some (Throws e, st') → dt <= 0).
Proof.
  unfold simulation_run. destruct (time_le dt 0) eqn:E; times.
  - split; [done|]. split; [intros; lra|done].
  - split; [intros; lra|]. split.
    + intros _. by destruct (run fuel tfinal dt st) as [[t st']|].
    + intros e st'. by destruct (run fuel tfinal dt st) as [[t st'']|].
Qed.

(** C4: [run(t, dt)] with [t] not after the end of the recorded epoch and
    [dt > 0] returns that end and leaves the whole state as it is: the
    recorded epoch, the event lanes, the pending buffers, the spike stores,
    the cell groups and everything else. *)
Theorem run_not_after_epoch_end_is_noop fuel t dt (st : state) :
  t <= t1 (epoch_ st) → 0 < dt →
  simulation_run fuel t dt st = Some (Returns (t1 (epoch_ st)), st).
Proof.
  intros Ht Hdt. unfold simulation_run, run.
  destruct (time_le dt 0) eqn:E; times; [lra|].
  by destruct (time_le t (t1 (epoch_ st))) eqn:E'; times; [|lra].
Qed.
End reset_and_run.

(** ** The tasks of run *)

Section tasks.
Context {CG C G : Type} `{!CellGroup CG, !Communicator C, !EventGenerator G}.
Abbreviation state := (simulation_state (CG:=CG) (C:=C) (G:=G)).

Lemma foldl_invariant {A B} (P : A → Prop) (f : A → B → A) (l : list B) (a : A) :
  (∀ a b, P a → P (f a b)) → P a → P (foldl f a l).
Proof. intros Hf. revert a. induction l; simpl; auto. Qed.

(** The epoch interval is set by the constructor only. *)
Lemma enqueue_cell_t_interval next (st : state) i :
  t_interval_ (enqueue_cell next st i) = t_interval_ st.
Proof.
  unfold enqueue_cell, set_event_lanes. repeat case_match; done.
Qed.

Lemma enqueue_t_interval next (st : state) :
  t_interval_ (enqueue next st) = t_interval_ st.
Proof.
  unfold enqueue.
  apply (foldl_invariant (λ s : state, t_interval_ s = t_interval_ st)); [|done].
  intros s i <-. apply enqueue_cell_t_interval.
Qed.

Lemma update_t_interval dt current (st : state) :
  t_interval_ (update dt current st) = t_interval_ st.
Proof.
  unfold update, set_local_spikes. repeat case_match; done.
Qed.

Lemma exchange_task_t_interval prev (st : state) :
  t_interval_ (exchange_task prev st) = t_interval_ st.
Proof.
  unfold exchange_task. repeat case_match; done.
Qed.

(** [update] and [exchange] do not write to the event lanes. *)
Lemma update_event_lanes dt current (st : state) :
  event_lanes_ (update dt current st) = event_lanes_ st.
Proof.
  unfold update, set_local_spikes. repeat case_match; done.
Qed.

Lemma exchange_task_event_lanes prev (st : state) :
  event_lanes_ (exchange_task prev st) = event_lanes_ st.
Proof.
  unfold exchange_task. repeat case_match; done.
Qed.

Lemma event_lanes_sorted k (st : state) :
  lanes_sorted st → Forall time_sorted (event_lanes k st).
Proof. intros [H1 H2]. unfold event_lanes. by destruct (parity k). Qed.

(** [enqueue] writes a time-sorted lane. *)
Lemma enqueue_cell_lanes_sorted next (st : state) i :
  generators_keep_contract G → lanes_sorted st →
  lanes_sorted (enqueue_cell next st i).
Proof.
  intros Hgen Hst. unfold enqueue_cell.
  destruct (pending_events_ st !! i) as [pending|]; [|done].
  destruct (event_lanes (id next - 1) st !! i) as [old_events|] eqn:Eold; [|done].
  destruct (event_generators_ st !! i) as [generators|]; [|done].
  destruct (event_lanes (id next) st !! i) as [lane|]; [|done].
  pose proof (merge_cell_events_sorted (t0 next) (t1 next) old_events
    (util_sort event_lt pending) generators lane) as Hsorted.
  destruct (merge_cell_events _ _ _ _ _ _) as [generators' lane'].
  simpl in Hsorted.
  assert (time_sorted lane') as Hlane.
  { apply Hsorted.
    - pose proof (event_lanes_sorted (id next - 1) st Hst) as Hl.
      rewrite Forall_lookup in Hl. by eapply Hl.
    - apply time_sorted_strongly, util_sort_sorted, event_lt_refines_time.
    - apply Forall_forall. intros g _. apply Hgen. }
  pose proof (event_lanes_sorted (id next) st Hst) as Hl.
  destruct Hst as [H1 H2].
  unfold set_event_lanes, event_lanes, lanes_sorted in *.
  destruct (parity (id next)); simpl; split; try done; by apply Forall_insert.
Qed.

Lemma enqueue_lanes_sorted next (st : state) :
  generators_keep_contract G → lanes_sorted st → lanes_sorted (enqueue next st).
Proof.
  intros Hgen. unfold enqueue. apply (foldl_invariant lanes_sorted).
  intros s i. by apply enqueue_cell_lanes_sorted.
Qed.

Lemma update_lanes_sorted dt current (st : state) :
  lanes_sorted st → lanes_sorted (update dt current st).
Proof. unfold lanes_sorted. by rewrite update_event_lanes. Qed.

Lemma exchange_task_lanes_sorted prev (st : state) :
  lanes_sorted st → lanes_sorted (exchange_task prev st).
Proof. unfold lanes_sorted. by rewrite exchange_task_event_lanes. Qed.
End tasks.

(** ** The epochs of run *)

Lemma next_epoch_t1 tfinal e interval :
  t1 (next_epoch tfinal e interval) = std_min (t1 e + interval) tfinal.
Proof. done. Qed.

Lemma next_epoch_t0 tfinal e interval :
  t0 (next_epoch tfinal e interval) = t1 e.
Proof. done. Qed.

(** With a non-negative interval the following epoch ends between the end of
    the given one and [tfinal]. *)
Lemma next_epoch_bounds tfinal e interval :
  0 <= interval → t1 e <= tfinal →
  t1 e <= t1 (next_epoch tfinal e interval)
  ∧ t1 (next_epoch tfinal e interval) <= tfinal.
Proof.
  intros Hi He. rewrite next_epoch_t1.
  destruct (std_min_cases (t1 e + interval) tfinal) as [[? ->]|[? ->]]; lra.
Qed.

(** Every rational is below the multiples of a positive one. *)
Lemma multiples_unbounded (d interval : Q) :
  0 < interval → ∃ n : nat, d <= inject_Z (Z.of_nat n) * interval.
Proof.
  intros Hi. exists (Z.to_nat (Qceiling (d / interval))).
  assert (d == d / interval * interval) as Hd.
  { field. intros H0. rewrite H0 in Hi. by apply Qlt_irrefl in Hi. }
  rewrite Hd at 1. apply Qmult_le_compat_r; [|lra].
  eapply Qle_trans; [apply Qle_ceiling|].
  rewrite <- Zle_Qle. lia.
Qed.

Lemma multiple_succ (n : nat) (interval : Q) :
  inject_Z (Z.of_nat (S n)) * interval == inject_Z (Z.of_nat n) * interval + interval.
Proof.
  rewrite Nat2Z.inj_succ. unfold Z.succ. rewrite inject_Z_plus. ring.
Qed.

Lemma multiple_nonneg (n : nat) (interval : Q) :
  0 <= interval → 0 <= inject_Z (Z.of_nat n) * interval.
Proof.
  intros Hi. apply Qmult_le_0_compat; [|done].
  change 0 with (inject_Z 0). rewrite <- Zle_Qle. lia.
Qed.

Section run_facts.
Context {CG C G : Type} `{!CellGroup CG, !Communicator C, !EventGenerator G}.
Abbreviation state := (simulation_state (CG:=CG) (C:=C) (G:=G)).

(** What the loop of [run] leaves, when it leaves. *)
Lemma run_loop_result fuel tfinal dt prev current next (st : state)
    prev' current' st' :
  run_loop fuel tfinal dt prev current next st = Some (prev', current', st') →
  t_interval_ st' = t_interval_ st
  ∧ (0 <= t_interval_ st → t1 next <= tfinal →
     t1 next <= t1 current' ∧ t1 current' <= tfinal)
  ∧ (generators_keep_contract G → lanes_sorted st → lanes_sorted st').
Proof.
  revert prev current next st.
  induction fuel as [|fuel IH]; intros prev current next st; simpl; [done|].
  destruct (epoch_empty (next_epoch tfinal next (t_interval_ st))).
  { intros [= <- <- <-]. split; [done|]. split; [|done]. intros; qlra. }
  intros Hloop. apply IH in Hloop as (Hint & Hbound & Hsorted).
  rewrite update_t_interval, enqueue_t_interval, exchange_task_t_interval
    in Hint, Hbound.
  split; [done|]. split.
  - intros Hi Hnext.
    destruct (next_epoch_bounds tfinal next (t_interval_ st) Hi Hnext) as [? ?].
    destruct (Hbound Hi) as [? ?]; [done|]. split; qlra.
  - intros Hgen Hst. apply Hsorted; [done|].
    by apply update_lanes_sorted, enqueue_lanes_sorted, exchange_task_lanes_sorted.
Qed.

(** The loop of [run] leaves after at most [n] iterations when the time
    left is at most [n] intervals. *)
Lemma run_loop_terminates (n : nat) tfinal dt prev current next (st : state) :
  0 < t_interval_ st → t1 next <= tfinal →
  tfinal - t1 next <= inject_Z (Z.of_nat n) * t_interval_ st →
  ∃ r, ∀ fuel, (n < fuel)%nat →
    run_loop fuel tfinal dt prev current next st = Some r.
Proof.
  revert prev current next st.
  induction n as [|n IH]; intros prev current next st Hi Hnext Hleft.
  - exists (current, next, st). intros [|fuel] Hfuel; [lia|]. simpl.
    replace (epoch_empty _) with true; [done|].
    symmetry. unfold epoch_empty. rewrite next_epoch_t0, next_epoch_t1. times.
    change (inject_Z (Z.of_nat 0)) with 0 in Hleft.
    destruct (std_min_cases (t1 next + t_interval_ st) tfinal) as [[? ->]|[? ->]];
      qlra.
  - destruct (epoch_empty (next_epoch tfinal next (t_interval_ st))) eqn:Eempty.
    { exists (current, next, st). intros [|fuel] Hfuel; [lia|]. simpl.
      by rewrite Eempty. }
    set (next' := next_epoch tfinal next (t_interval_ st)) in *.
    set (st' := update dt next (enqueue next' (exchange_task current st))).
    destruct (IH current next next' st') as [r Hr].
    + unfold st'.
      by rewrite update_t_interval, enqueue_t_interval, exchange_task_t_interval.
    + by apply next_epoch_bounds; [qlra|].
    + unfold st'.
      rewrite update_t_interval, enqueue_t_interval, exchange_task_t_interval.
      rewrite multiple_succ in Hleft.
      pose proof (multiple_nonneg n (t_interval_ st)) as Hn.
      unfold next'. rewrite next_epoch_t1.
      destruct (std_min_cases (t1 next + t_interval_ st) tfinal) as [[? ->]|[? ->]];
        qlra.
    + exists r. intros [|fuel] Hfuel; [lia|]. simpl.
      fold next'. rewrite Eempty. apply Hr. lia.
Qed.

(** What [run] returns, when it returns. *)
Lemma run_result fuel tfinal dt (st : state) t st' :
  run fuel tfinal dt st = Some (t, st') →
  t_interval_ st' = t_interval_ st
  ∧ t1 (epoch_ st') = t
  ∧ (0 <= t_interval_ st →
     t1 (epoch_ st) <= t
     ∧ if time_le tfinal (t1 (epoch_ st)) then t = t1 (epoch_ st) else t <= tfinal)
  ∧ (generators_keep_contract G → lanes_sorted st → lanes_sorted st').
Proof.
  unfold run. destruct (time_le tfinal (t1 (epoch_ st))) eqn:Efinal.
  { intros [= <- <-]. split; [done|]. split; [done|]. split; [|done].
    intros _. split; [apply Qle_refl|done]. }
  times.
  set (current := next_epoch tfinal (epoch_ st) (t_interval_ st)).
  set (next := next_epoch tfinal current (t_interval_ st)).
  assert (0 <= t_interval_ st → t1 (epoch_ st) <= t1 current ∧ t1 current <= tfinal)
    as Hcurrent.
  { intros Hi. apply next_epoch_bounds; [done|qlra]. }
  destruct (epoch_empty next).
  { intros [= <- <-]. simpl.
    rewrite exchange_task_t_interval, update_t_interval, enqueue_t_interval.
    split; [done|]. split; [done|]. split; [apply Hcurrent|].
    intros Hgen Hst. unfold lanes_sorted. simpl.
    by apply exchange_task_lanes_sorted, update_lanes_sorted, enqueue_lanes_sorted. }
  destruct (run_loop _ _ _ _ _ _ _) as [[[prev' current'] st1]|] eqn:Eloop; [|done].
  intros [= <- <-]. simpl.
  apply run_loop_result in Eloop as (Hint & Hbound & Hsorted).
  rewrite update_t_interval, !enqueue_t_interval in Hint, Hbound.
  rewrite exchange_task_t_interval, update_t_interval, exchange_task_t_interval.
  split; [done|]. split; [done|]. split.
  - intros Hi. destruct (Hcurrent Hi) as [? ?].
    destruct (next_epoch_bounds tfinal current (t_interval_ st)) as [? ?]; [done..|].
    destruct Hbound as [? ?]; [done..|].
    clear Hsorted Hcurrent. subst next. split; qlra.
  - intros Hgen Hst. unfold lanes_sorted. simpl.
    apply exchange_task_lanes_sorted, update_lanes_sorted, exchange_task_lanes_sorted.
    apply Hsorted; [done|].
    by apply update_lanes_sorted, enqueue_lanes_sorted, enqueue_lanes_sorted.
Qed.

(** With a non-negative interval [run] returns, and returns the same with
    any larger fuel. *)
Lemma run_terminates tfinal dt (st : state) :
  0 <= t_interval_ st →
  ∃ fuel0 r, ∀ fuel, (fuel0 ≤ fuel)%nat → run fuel tfinal dt st = Some r.
Proof.
  intros Hi. unfold run.
  destruct (time_le tfinal (t1 (epoch_ st))) eqn:Efinal; [by exists 0%nat; eauto|].
  times.
  set (current := next_epoch tfinal (epoch_ st) (t_interval_ st)).
  set (next := next_epoch tfinal current (t_interval_ st)).
  destruct (epoch_empty next) eqn:Eempty; [by exists 0%nat; eauto|].
  assert (t1 current <= tfinal) as Hcurrent.
  { apply next_epoch_bounds; [done|qlra]. }
  assert (0 < t_interval_ st) as Hpos.
  { apply Qle_lteq in Hi as [?|Hzero]; [done|]. exfalso.
    unfold epoch_empty in Eempty. times. apply Eempty.
    unfold next. rewrite next_epoch_t0, next_epoch_t1.
    destruct (std_min_cases (t1 current + t_interval_ st) tfinal) as [[? ->]|[? ->]];
      qlra. }
  destruct (multiples_unbounded (tfinal - t1 next) (t_interval_ st) Hpos) as [n Hn].
  set (st1 := update dt current (enqueue next (enqueue current st))).
  destruct (run_loop_terminates n tfinal dt (epoch_ st) current next st1)
    as [[[prev' current'] st2] Hr].
  - unfold st1. by rewrite update_t_interval, !enqueue_t_interval.
  - by apply next_epoch_bounds.
  - unfold st1. by rewrite update_t_interval, !enqueue_t_interval.
  - exists (S n). eexists. intros fuel Hfuel. fold st1. rewrite Hr by lia. done.
Qed.
End run_facts.

(** ** Sequences of public operations *)

Section public_operations.
Context {CG C G : Type} `{!CellGroup CG, !Communicator C, !EventGenerator G}.
Abbreviation state := (simulation_state (CG:=CG) (C:=C) (G:=G)).

Lemma inject_flat_event_lanes l (st : state) :
  event_lanes_ (inject_flat l st).2 = event_lanes_ st.
Proof.
  revert st. induction l as [|ge l IH]; intros st; simpl; [done|].
  destruct (time_lt _ _); [done|]. rewrite IH. apply inject_event_frame.
Qed.

Lemma public_step_lanes_sorted (st st' : state) :
  generators_keep_contract G → public_step st st' →
  lanes_sorted st → lanes_sorted st'.
Proof.
  intros Hgen Hstep Hst.
  destruct Hstep as [fuel tfinal dt st r st' Hrun|evs st r st' Hinject|st].
  - unfold simulation_run in Hrun. destruct (time_le dt 0); [by simplify_eq|].
    destruct (run fuel tfinal dt st) as [[t st'']|] eqn:Erun; [|done].
    simplify_eq. apply run_result in Erun as (_ & _ & _ & Hsorted). by apply Hsorted.
  - unfold lanes_sorted.
    replace st' with (inject_events evs st).2 by by rewrite Hinject.
    by rewrite inject_events_flat, inject_flat_event_lanes.
  - destruct (reset_clears_lanes st) as [H1 H2]. unfold lanes_sorted.
    rewrite H1, H2.
    split; apply Forall_forall; by intros ? [-> _]%elem_of_replicate.
Qed.

(** C6 (as amended): every event lane is time-sorted after every public
    operation.  Starting from a state in which the lanes are time-sorted
    (the constructor leaves them empty), with generators that keep their
    contract, any sequence of calls of [run], [inject_events] and [reset]
    leaves every lane of both lane buffers time-sorted.  The pending
    buffers are not kept sorted: [inject_events] and the exchange append
    to them, and the enqueue task sorts a buffer when it consumes it. *)
Theorem event_lanes_stay_sorted (st st' : state) :
  generators_keep_contract G → lanes_sorted st →
  rtc public_step st st' → lanes_sorted st'.
Proof.
  intros Hgen Hst Hsteps. induction Hsteps as [|st st1 st' Hstep _ IH]; [done|].
  apply IH. by eapply public_step_lanes_sorted.
Qed.

(** C5 (as amended): successive calls [run(tfinal, dt)] with [dt > 0], on
    a simulation with a non-negative epoch interval, all return, and the
    returned times are non-decreasing, starting from the end of the
    recorded epoch.  A call returns a time of at most its [tfinal] when
    [tfinal] is after the time reached before; otherwise it returns the
    time reached before, which may exceed [tfinal]. *)
Theorem successive_runs_return_in_order calls (st : state) :
  0 <= t_interval_ st → Forall (λ call, 0 < call.2) calls →
  ∃ fuel0 ts st',
    (∀ fuel, (fuel0 ≤ fuel)%nat → run_calls fuel calls st = Some (ts, st'))
    ∧ returns_in_order (t1 (epoch_ st)) calls ts.
Proof.
  intros Hi Hcalls. revert st Hi.
  induction Hcalls as [|[tfinal dt] calls Hdt _ IH]; intros st Hi.
  { by exists 0%nat, [], st. }
  destruct (run_terminates tfinal dt st Hi) as (fuel1 & [t st1] & Hrun).
  destruct (run_result fuel1 tfinal dt st t st1) as (Hint & Ht & Hbound & _);
    [by apply Hrun|].
  destruct (IH st1) as (fuel2 & ts & st' & Hrest & Horder); [by rewrite Hint|].
  exists (fuel1 `max` fuel2)%nat, (t :: ts), st'. split.
  - intros fuel Hfuel. simpl. unfold simulation_run.
    simpl in Hdt. destruct (time_le dt 0) eqn:E; times; [lra|].
    rewrite Hrun by lia. by rewrite Hrest by lia.
  - simpl. rewrite Ht in Horder. destruct (Hbound Hi) as [? ?]. done.
Qed.
End public_operations.

(** ** The driver on the small network *)

Module DemoFacts.
Import Demo.

Lemma one_shot_keeps_contract : generators_keep_contract one_shot.
Proof.
  intros t_from t_to g. unfold yields_in_window. simpl.
  destruct (time_le t_from (time g)) eqn:E1; simpl; [|done].
  destruct (time_lt (time g) t_to) eqn:E2; simpl; [|done].
  times. split; [done|]. by repeat constructor.
Qed.

(** Injection of a past event after an accepted one: the call throws, and
    the accepted event is already on the pending buffer of cell 0. *)
Lemma inject_events_past_changes_pending :
  (0%N, [ev 7 1; ev (-1) 1]) ∈ [(0%N, [ev 7 1; ev (-1) 1])]
  ∧ ev (-1) 1 ∈ [ev 7 1; ev (-1) 1]
  ∧ time (ev (-1) 1) < t1 (epoch_ two_cells)
  ∧ (inject_events [(0%N, [ev 7 1; ev (-1) 1])] two_cells).1
      = Throws (bad_event_time (-1) 0)
  ∧ pending_events_ two_cells = [[]; []]
  ∧ pending_events_ (inject_events [(0%N, [ev 7 1; ev (-1) 1])] two_cells).2
      = [[ev 7 1]; []].
Proof. repeat split; try done; repeat constructor. Qed.

Lemma inject_events_rejects_past_witness :
  (0%N, [ev 7 1; ev (-1) 1]) ∈ [(0%N, [ev 7 1; ev (-1) 1])]
  ∧ ev (-1) 1 ∈ [ev 7 1; ev (-1) 1]
  ∧ time (ev (-1) 1) < t1 (epoch_ two_cells)
  ∧ ∃ pre bad post st',
      flatten_events [(0%N, [ev 7 1; ev (-1) 1])] = pre ++ bad :: post
      ∧ Forall (λ ge, t1 (epoch_ two_cells) <= time ge.2) pre
      ∧ time bad.2 < t1 (epoch_ two_cells)
      ∧ inject_events [(0%N, [ev 7 1; ev (-1) 1])] two_cells =
          (Throws (bad_event_time (time bad.2) (t1 (epoch_ two_cells))), st')
      ∧ (∀ i, pending_events_ st' !! i
              = (λ p, p ++ events_for_cell (gid_to_local_ two_cells) i pre)
                  <$> pending_events_ two_cells !! i)
      ∧ (pending_events_ st' = pending_events_ two_cells
         ↔ ∀ i, is_Some (pending_events_ two_cells !! i) →
                events_for_cell (gid_to_local_ two_cells) i pre = [])
      ∧ length (pending_events_ st') = length (pending_events_ two_cells)
      ∧ epoch_ st' = epoch_ two_cells
      ∧ event_lanes_ st' = event_lanes_ two_cells
      ∧ local_spikes_ st' = local_spikes_ two_cells
      ∧ cell_groups_ st' = cell_groups_ two_cells
      ∧ communicator_ st' = communicator_ two_cells
      ∧ event_generators_ st' = event_generators_ two_cells
      ∧ gid_to_local_ st' = gid_to_local_ two_cells
      ∧ t_interval_ st' = t_interval_ two_cells.
Proof.
  assert (H1 : (0%N, [ev 7 1; ev (-1) 1]) ∈ [(0%N, [ev 7 1; ev (-1) 1])])
    by repeat constructor.
  assert (H2 : ev (-1) 1 ∈ [ev 7 1; ev (-1) 1]) by repeat constructor.
  assert (H3 : time (ev (-1) 1) < t1 (epoch_ two_cells)) by reflexivity.
  do 3 (split; [assumption|]).
  exact (inject_events_rejects_past _ two_cells _ _ _ H1 H2 H3).
Defined.

(** A past event for the foreign gid 9 is rejected; a later one is
    dropped. *)
Lemma inject_events_checks_time_before_locality_witness :
  gid_to_local_ two_cells !! 9%N = None
  ∧ (∃ t, (inject_events [(9%N, [ev (-1) 1])] two_cells).1
            = Throws (bad_event_time t (t1 (epoch_ two_cells)))
          ∧ t < t1 (epoch_ two_cells))
  ∧ inject_events [(0%N, [ev 1 1]); (9%N, [ev 2 1; ev 3 1])] two_cells
      = inject_events [(0%N, [ev 1 1]); (9%N, [ev 2 1])] two_cells
  ∧ inject_events [(9%N, [ev 2 1; ev 3 1])] two_cells = (Returns (), two_cells).
Proof.
  assert (Hgid : gid_to_local_ two_cells !! 9%N = None) by reflexivity.
  split; [assumption|]. split; [|split].
  - apply (proj1 (inject_events_checks_time_before_locality
                    [(9%N, [ev (-1) 1])] two_cells) 9%N [ev (-1) 1] (ev (-1) 1));
      [assumption|repeat constructor..|reflexivity].
  - apply (proj1 (proj2 (inject_events_checks_time_before_locality
                    [(0%N, [ev 1 1]); (9%N, [ev 2 1; ev 3 1])] two_cells))
             [(0%N, [ev 1 1])] [] 9%N [ev 2 1] [] (ev 3 1));
      [assumption|by vm_compute|reflexivity].
  - apply (proj2 (proj2 (inject_events_checks_time_before_locality
                    [(9%N, [ev 2 1; ev 3 1])] two_cells))).
    intros gid evs [[= -> ->]|Hin]%elem_of_cons; [|by apply elem_of_nil in Hin].
    split; [assumption|]. repeat constructor; by vm_compute.
Defined.

(** A pending event before [t_from] is kept: only the old events are cut
    at [t_from]. *)
Lemma merge_cell_events_keeps_early_pending :
  time_sorted [ev 4 2; ev 5 2] ∧ time_sorted [ev 1 1]
  ∧ (merge_cell_events (G:=one_shot) 5 10 [ev 4 2; ev 5 2] [ev 1 1] [] []).2
      = [ev 1 1; ev 5 2]
  ∧ ¬ Forall (λ e, 5 <= time e)
        (merge_cell_events (G:=one_shot) 5 10 [ev 4 2; ev 5 2] [ev 1 1] [] []).2.
Proof.
  repeat split; try done. intros H. apply Forall_cons in H as [H _]. by vm_compute in H.
Qed.

Lemma merge_cell_events_guarantees_witness :
  let old_events := [ev 4 2; ev 5 2; ev 12 2; ev 13 1] in
  let pending := [ev 5 1; ev 12 1; ev 12 3] in
  let generators : list one_shot := [ev 5 7; ev 5 0; ev 20 1] in
  let out := (merge_cell_events 5 10 old_events pending generators [ev 3 3]).2 in
  time_sorted old_events ∧ time_sorted pending ∧ 5 <= 10
  ∧ Forall (λ e, 5 <= time e) pending
  ∧ Forall (yields_in_window 5 10) generators
  ∧ time_sorted out
  ∧ Forall (λ e, 5 <= time e) out
  ∧ ∀ e, e ∈ old_events ∨ e ∈ pending → 10 <= time e → e ∈ out.
Proof.
  intros old_events pending generators out.
  assert (H1 : time_sorted old_events) by reflexivity.
  assert (H2 : time_sorted pending) by reflexivity.
  assert (H3 : 5 <= 10) by by vm_compute.
  assert (H4 : Forall (λ e, 5 <= time e) pending)
    by (repeat constructor; by vm_compute).
  assert (H5 : Forall (yields_in_window 5 10) generators)
    by (repeat constructor; by vm_compute).
  do 5 (split; [assumption|]).
  exact (merge_cell_events_guarantees 5 10 old_events pending generators
           [ev 3 3] H1 H2 H3 H4 H5).
Defined.



Lemma run_not_after_epoch_end_is_noop_witness :
  3 <= t1 (epoch_ after_run) ∧ 0 < 1
  ∧ simulation_run 0 3 1 after_run = Some (Returns (t1 (epoch_ after_run)), after_run).
Proof.
  assert (H1 : 3 <= t1 (epoch_ after_run)) by by vm_compute.
  assert (H2 : 0 < 1) by reflexivity.
  do 2 (split; [assumption|]).
  exact (run_not_after_epoch_end_is_noop 0 3 1 after_run H1 H2).
Defined.

(** After [run(5, 0.1)] has returned 5, [run(3, 1)] returns 5 again, which
    exceeds its [tfinal]. *)
Lemma run_returns_beyond_tfinal :
  fst <$> run_calls 8 [(5, 1#10); (3, 1)] two_cells = Some [5; 5]
  ∧ 0 < 1#10 ∧ 0 < 1 ∧ ¬ 5 <= 3.
Proof. repeat split; try done. by vm_compute. Qed.

Lemma successive_runs_return_in_order_witness :
  0 <= t_interval_ two_cells
  ∧ Forall (λ call : time_type * time_type, 0 < call.2) [(5, 1#10); (3, 1); (7, 1)]
  ∧ ∃ fuel0 ts st',
      (∀ fuel, (fuel0 ≤ fuel)%nat →
         run_calls fuel [(5, 1#10); (3, 1); (7, 1)] two_cells = Some (ts, st'))
      ∧ returns_in_order (t1 (epoch_ two_cells)) [(5, 1#10); (3, 1); (7, 1)] ts.
Proof.
  assert (H1 : 0 <= t_interval_ two_cells) by by vm_compute.
  assert (H2 : Forall (λ call : time_type * time_type, 0 < call.2)
                 [(5, 1#10); (3, 1); (7, 1)]) by (repeat constructor).
  do 2 (split; [assumption|]).
  exact (successive_runs_return_in_order _ two_cells H1 H2).
Defined.

(** [inject_events] returns and leaves a pending buffer that is not
    sorted. *)
Lemma inject_events_leaves_pending_unsorted :
  lanes_sorted after_run ∧ pending_sorted after_run
  ∧ inject_events [(1%N, [ev 7 1; ev 6 1])] after_run = (Returns (), after_inject)
  ∧ pending_events_ after_inject = [[]; [ev (13#2) 1; ev 7 1; ev 6 1]]
  ∧ ¬ pending_sorted after_inject.
Proof.
  split; [vm_compute; by repeat constructor|].
  split; [vm_compute; by repeat constructor|].
  split; [by vm_compute|]. split; [by vm_compute|].
  intros H. vm_compute in H.
  apply Forall_cons in H as [_ H]. apply Forall_cons in H as [H _]. done.
Qed.

Lemma event_lanes_stay_sorted_witness :
  generators_keep_contract one_shot ∧ lanes_sorted two_cells
  ∧ rtc public_step two_cells (reset after_inject)
  ∧ lanes_sorted (reset after_inject).
Proof.
  assert (H1 : generators_keep_contract one_shot) by apply one_shot_keeps_contract.
  assert (H2 : lanes_sorted two_cells) by by repeat constructor.
  assert (H3 : rtc public_step two_cells (reset after_inject)).
  { apply (rtc_l _ _ after_run).
    { apply (step_run 8 5 (1#10) two_cells (Returns 5)). by vm_compute. }
    apply (rtc_l _ _ after_inject).
    { apply (step_inject_events [(1%N, [ev 7 1; ev 6 1])] after_run (Returns ())).
      by vm_compute. }
    apply rtc_once, step_reset. }
  do 3 (split; [assumption|]).
  exact (event_lanes_stay_sorted two_cells (reset after_inject) H1 H2 H3).
Defined.

Lemma run_throws_iff_dt_not_positive_witness :
  0 <= 0
  ∧ simulation_run 0 5 0 two_cells =
      Some (Throws (domain_error "Finite time-step must be supplied."), two_cells).
Proof.
  assert (H1 : 0 <= 0) by by vm_compute.
  split; [assumption|].
  exact (proj1 (run_throws_iff_dt_not_positive 0 5 0 two_cells) H1).
Defined.
End DemoFacts.

(** * More of the driver: properties *)

(** ** split_sorted_range *)

Lemma lower_bound_partition {A V : Type} (cmp : A → V → bool) (v : V) (l1 l2 : list A) :
  Forall (λ e, cmp e v = true) l1 →
  match l2 with [] => True | e :: _ => cmp e v = false end →
  lower_bound cmp (l1 ++ l2) v = length l1.
Proof.
  intros H1 H2. induction H1 as [|e l1 He _ IH]; simpl.
  - destruct l2 as [|e l2]; [done|]. simpl. by rewrite H2.
  - by rewrite He, IH.
Qed.

(** X1: [split_sorted_range] splits a range at its partition point: when the
    comparison with [v] holds for every element of a first part and fails
    for every element of the rest, the two ranges returned are exactly these
    two parts. *)
Theorem split_sorted_range_at_partition_point {A V : Type} (cmp : A → V → bool)
    (v : V) (l1 l2 : list A) :
  Forall (λ e, cmp e v = true) l1 → Forall (λ e, cmp e v = false) l2 →
  split_sorted_range (l1 ++ l2) v cmp = (l1, l2).
Proof.
  intros H1 H2. unfold split_sorted_range.
  rewrite lower_bound_partition; [|done|by destruct H2].
  by rewrite take_app_length, drop_app_length.
Qed.

Lemma list_filter_all {A : Type} (f : A → bool) (l : list A) :
  Forall (λ e, f e = true) l → List.filter f l = l.
Proof. induction 1 as [|e l He _ IH]; simpl; [done|]. by rewrite He, IH. Qed.

Lemma list_filter_none {A : Type} (f : A → bool) (l : list A) :
  Forall (λ e, f e = false) l → List.filter f l = [].
Proof. induction 1 as [|e l He _ IH]; simpl; [done|]. by rewrite He, IH. Qed.

(** On a time-sorted range the two parts are the events before [v] and the
    events from [v] on. *)
Lemma split_sorted_range_filter l v :
  time_sorted l →
  (split_sorted_range l v event_time_less).1
    = List.filter (λ e, time_lt (time e) v) l
  ∧ (split_sorted_range l v event_time_less).2
    = List.filter (λ e, time_le v (time e)) l.
Proof.
  intros Hs. apply time_sorted_strongly in Hs.
  destruct (split_sorted_range_spec l v Hs) as (Heq & H1 & H2).
  set (a := (split_sorted_range l v event_time_less).1) in *.
  set (b := (split_sorted_range l v event_time_less).2) in *.
  clearbody a b. subst l. rewrite !List.filter_app. split.
  - rewrite (list_filter_all _ a), (list_filter_none _ b), app_nil_r; [done| |].
    + eapply Forall_impl; [done|]. intros e He. simpl in *. by times.
    + eapply Forall_impl; [done|]. intros e He. simpl in *. by times.
  - rewrite (list_filter_none _ a), (list_filter_all _ b); [done| |].
    + eapply Forall_impl; [done|]. intros e He. simpl in *. by times.
    + eapply Forall_impl; [done|]. intros e He. simpl in *. by times.
Qed.

(** X2: on a time-sorted range of events, [split_sorted_range] at time [v]
    returns the events before [v] and the events from [v] on, each in the
    order of the range; nothing is lost. *)
Theorem split_sorted_range_of_sorted_events l v :
  time_sorted l →
  (split_sorted_range l v event_time_less).1
    = List.filter (λ e, time_lt (time e) v) l
  ∧ (split_sorted_range l v event_time_less).2
    = List.filter (λ e, time_le v (time e)) l
  ∧ (split_sorted_range l v event_time_less).1
      ++ (split_sorted_range l v event_time_less).2 = l.
Proof.
  intros Hs. destruct (split_sorted_range_filter l v Hs) as [H1 H2].
  split; [done|]. split; [done|]. unfold split_sorted_range. simpl.
  apply take_drop.
Qed.

(** ** merge_cell_events: what becomes of the events and the generators *)

Section merge_conservation.
Context {G : Type} `{!EventGenerator G}.

Lemma concat_nonempty_spans (spans : list event_span) :
  concat (filter (λ s, s ≠ []) spans) = concat spans.
Proof.
  induction spans as [|s spans IH]; [done|].
  rewrite filter_cons. case_decide as Hs.
  - by rewrite !concat_cons, IH.
  - destruct s; [|done]. by rewrite concat_cons, IH.
Qed.

Lemma merge_cell_events_generators t_from t_to old_events pending
    (generators : list G) new_events :
  (merge_cell_events t_from t_to old_events pending generators new_events).1
    = (λ g, (events t_from t_to g).2) <$> generators.
Proof.
  unfold merge_cell_events. destruct generators as [|g gs]; [done|].
  cbv zeta. change (negb (bool_decide (g :: gs = []))) with true. cbv iota.
  by rewrite push_generator_spans_spec.
Qed.

Lemma merge_cell_events_Permutation t_from t_to old_events pending
    (generators : list G) new_events :
  time_sorted old_events →
  (merge_cell_events t_from t_to old_events pending generators new_events).2
    ≡ₚ List.filter (λ e, time_le t_from (time e)) old_events ++ pending
         ++ concat (generator_spans t_from t_to generators).
Proof.
  intros Hold. rewrite merge_cell_events_out. cbv zeta.
  destruct (split_sorted_range_filter old_events t_from Hold) as [_ ->].
  set (old1 := List.filter _ old_events).
  destruct generators as [|g gs].
  { rewrite std_merge_Permutation. simpl. rewrite app_nil_r. apply Permutation_app_comm. }
  rewrite tree_merge_Permutation, std_merge_Permutation.
  rewrite concat_app, concat_nonempty_spans. simpl. rewrite app_nil_r.
  set (spans := concat (generator_spans t_from t_to (g :: gs))).
  unfold split_sorted_range. simpl.
  pose proof (take_drop (lower_bound event_time_less old1 t_to) old1) as Ho.
  pose proof (take_drop (lower_bound event_time_less pending t_to) pending) as Hp.
  set (oin := take _ old1) in *. set (otail := drop _ old1) in *.
  set (pin := take _ pending) in *. set (ptail := drop _ pending) in *.
  clearbody oin otail pin ptail spans. rewrite <- Ho, <- Hp. solve_Permutation.
Qed.

(** X3: [merge_cell_events] neither loses nor duplicates events.  For a
    time-sorted [old_events] the output holds, up to order, exactly the old
    events from [t_from] on, all pending events and all events the
    generators yield for the interval; only the old events before [t_from]
    are dropped.  Each generator is asked once, in order, and left in the
    state that call gives. *)
Theorem merge_cell_events_conserves_events t_from t_to old_events pending
    (generators : list G) new_events :
  time_sorted old_events →
  (merge_cell_events t_from t_to old_events pending generators new_events).2
    ≡ₚ List.filter (λ e, time_le t_from (time e)) old_events ++ pending
         ++ concat (generator_spans t_from t_to generators)
  ∧ (merge_cell_events t_from t_to old_events pending generators new_events).1
    = (λ g, (events t_from t_to g).2) <$> generators.
Proof.
  intros Hold. split.
  - by apply merge_cell_events_Permutation.
  - apply merge_cell_events_generators.
Qed.

(** X4: with no generators and no pending events the output is the part of
    the old lane from [t_from] on, unchanged and in the same order (so an
    empty lane gives an empty lane), whatever [t_to] is. *)
Theorem merge_cell_events_carries_old_events_over t_from t_to old_events
    new_events :
  time_sorted old_events →
  merge_cell_events (G:=G) t_from t_to old_events [] [] new_events
    = ([], List.filter (λ e, time_le t_from (time e)) old_events).
Proof.
  intros Hold.
  rewrite (surjective_pairing (merge_cell_events _ _ _ _ _ _)).
  rewrite merge_cell_events_generators, merge_cell_events_out. cbv zeta.
  rewrite std_merge_nil_l.
  by destruct (split_sorted_range_filter old_events t_from Hold) as [_ <-].
Qed.
End merge_conservation.

(** ** inject_events: what is appended, and what is left alone *)

Section injection_effects.
Context {CG C G : Type} `{!CellGroup CG, !Communicator C, !EventGenerator G}.
Abbreviation state := (simulation_state (CG:=CG) (C:=C) (G:=G)).

(** Whatever the outcome, the state [inject_events] leaves is the state
    after the pushes of a prefix of the call. *)
Lemma inject_flat_state l (st : state) :
  ∃ pre, pre `prefix_of` l ∧ (inject_flat l st).2 = inject_all pre st.
Proof.
  revert st. induction l as [|x l IH]; intros st; simpl.
  { by exists []. }
  destruct (time_lt _ _).
  { exists []. split; [apply prefix_nil|done]. }
  destruct (IH (inject_event x.1 x.2 st)) as (pre & Hpre & ->).
  exists (x :: pre). split; [|done]. by apply prefix_cons.
Qed.

(** X5: when no event of the call is before the end of the recorded epoch,
    [inject_events] returns normally and the pending buffer of every local
    cell is its old content followed by the events addressed to that cell,
    in the order of the call; events for foreign gids are dropped.  The
    epoch, the lanes, the spike stores, the groups, the communicator and the
    generators are as before. *)
Theorem inject_events_appends_in_call_order events (st : state) :
  (∀ gid evs e, (gid, evs) ∈ events → e ∈ evs → t1 (epoch_ st) <= time e) →
  ∃ st',
    inject_events events st = (Returns (), st')
    ∧ (∀ i, pending_events_ st' !! i
            = (λ p, p ++ events_for_cell (gid_to_local_ st) i (flatten_events events))
                <$> pending_events_ st !! i)
    ∧ epoch_ st' = epoch_ st ∧ event_lanes_ st' = event_lanes_ st
    ∧ local_spikes_ st' = local_spikes_ st ∧ cell_groups_ st' = cell_groups_ st
    ∧ communicator_ st' = communicator_ st
    ∧ event_generators_ st' = event_generators_ st.
Proof.
  intros Hfuture. exists (inject_all (flatten_events events) st).
  split; [|split; [apply inject_all_pending|]].
  - rewrite inject_events_flat. apply inject_flat_accepts.
    apply Forall_forall. intros [gid e] Hin. unfold flatten_events in Hin.
    apply list_elem_of_bind in Hin as ([gid' evs] & Hin & Hentry).
    simpl in Hin. apply list_elem_of_fmap in Hin as (e' & [= -> ->] & He).
    by eapply Hfuture.
  - destruct (inject_all_frame (flatten_events events) st)
      as (? & ? & ? & ? & ? & ? & _). done.
Qed.

(** X6: whether it returns or throws, [inject_events] only appends to
    pending buffers: every buffer keeps its old content as a prefix, the
    number of buffers is the same, and the epoch, the lanes, the spike
    stores, the groups, the communicator, the generators, the map of the
    local gids and the epoch interval are untouched. *)
Theorem inject_events_only_appends events (st : state) :
  (∀ i, ∃ suffix,
     pending_events_ (inject_events events st).2 !! i
       = (λ p, p ++ suffix) <$> pending_events_ st !! i)
  ∧ length (pending_events_ (inject_events events st).2) = length (pending_events_ st)
  ∧ epoch_ (inject_events events st).2 = epoch_ st
  ∧ event_lanes_ (inject_events events st).2 = event_lanes_ st
  ∧ local_spikes_ (inject_events events st).2 = local_spikes_ st
  ∧ cell_groups_ (inject_events events st).2 = cell_groups_ st
  ∧ communicator_ (inject_events events st).2 = communicator_ st
  ∧ event_generators_ (inject_events events st).2 = event_generators_ st
  ∧ gid_to_local_ (inject_events events st).2 = gid_to_local_ st
  ∧ t_interval_ (inject_events events st).2 = t_interval_ st.
Proof.
  rewrite inject_events_flat.
  destruct (inject_flat_state (flatten_events events) st) as (pre & _ & ->).
  destruct (inject_all_frame pre st) as (? & ? & ? & ? & ? & ? & ?).
  destruct (inject_all_gid_to_local pre st) as [? ?].
  split; [|done]. intros i. eexists. apply inject_all_pending.
Qed.
End injection_effects.

(** ** run: the epochs it goes through *)

Section run_epochs.
Context {CG C G : Type} `{!CellGroup CG, !Communicator C, !EventGenerator G}.
Abbreviation state := (simulation_state (CG:=CG) (C:=C) (G:=G)).

(** With the exact sum the rounded definitions are those of [run]. *)
Lemma run_loop_rounded_exact fuel tfinal dt prev current next (st : state) :
  run_loop_rounded Qplus fuel tfinal dt prev current next st
    = run_loop fuel tfinal dt prev current next st.
Proof.
  revert prev current next st.
  induction fuel as [|fuel IH]; intros prev current next st; simpl; [done|].
  change (next_epoch_rounded Qplus tfinal next (t_interval_ st))
    with (next_epoch tfinal next (t_interval_ st)).
  destruct (epoch_empty _); [done|]. apply IH.
Qed.

Lemma run_rounded_exact fuel tfinal dt (st : state) :
  run_rounded Qplus fuel tfinal dt st = run fuel tfinal dt st.
Proof.
  unfold run_rounded, run.
  change (next_epoch_rounded Qplus) with next_epoch.
  by rewrite run_loop_rounded_exact.
Qed.

(** The loop of [run] when every rounded sum [t + interval] advances [t] by
    at least [lo] and at most [hi]: it leaves after at most [k] more epochs
    when [k] steps of [lo] cover what is left to [tfinal]. *)
Lemma run_loop_rounded_reaches time_add lo hi tstart tfinal dt :
  0 < lo →
  ∀ (k : nat) prev current next (st : state),
  (∀ t, tstart <= t → t <= tfinal →
     t + lo <= time_add t (t_interval_ st) ∧ time_add t (t_interval_ st) <= t + hi) →
  tstart <= t0 next → t0 next < t1 next → t1 next <= tfinal →
  t1 next <= t0 next + hi →
  (t1 next < tfinal → t0 next + lo <= t1 next) →
  tfinal - t1 next <= inject_Z (Z.of_nat k) * lo →
  ∃ prev' current' st' (m : nat),
    (∀ fuel, (S k ≤ fuel)%nat →
       run_loop_rounded time_add fuel tfinal dt prev current next st
         = Some (prev', current', st'))
    ∧ id current' = (id next + Z.of_nat m)%Z
    ∧ t1 current' == tfinal
    ∧ t0 next + inject_Z (Z.of_nat m) * lo <= t0 current'
    ∧ t1 current' <= t1 next + inject_Z (Z.of_nat m) * hi
    ∧ t0 current' < t1 current'
    ∧ t1 current' <= t0 current' + hi.
Proof.
  intros Hlo k.
  induction k as [|k IH]; intros prev current next st Hstep Hstart Hne Hfin Hhi Hfull Hk.
  - change (inject_Z (Z.of_nat 0)) with 0 in Hk.
    assert (t1 next == tfinal) as Heq by lra.
    destruct (Hstep (t1 next)) as [Hl Hu]; [lra..|].
    exists current, next, st, 0%nat. change (inject_Z (Z.of_nat 0)) with 0.
    split; [|split; [lia|split; [done|split; [lra|split; [lra|done]]]]].
    intros [|fuel] Hfuel; [lia|]. simpl.
    assert (epoch_empty (next_epoch_rounded time_add tfinal next (t_interval_ st)) = true)
      as ->; [|done].
    unfold epoch_empty, next_epoch_rounded, advance_to. simpl. times.
    destruct (std_min_cases (time_add (t1 next) (t_interval_ st)) tfinal)
      as [[? ->]|[? ->]]; lra.
  - destruct (Hstep (t1 next)) as [Hl Hu]; [lra..|].
    set (next' := next_epoch_rounded time_add tfinal next (t_interval_ st)).
    assert (t0 next' = t1 next) as Hn0 by done.
    assert (t1 next' = std_min (time_add (t1 next) (t_interval_ st)) tfinal)
      as Hn1 by done.
    assert (id next' = (id next + 1)%Z) as Hnid by done.
    destruct (Qlt_le_dec (t1 next) tfinal) as [Hlt|Hge].
    + assert (epoch_empty next' = false) as Eempty.
      { unfold epoch_empty. rewrite Hn0, Hn1. times.
        destruct (std_min_cases (time_add (t1 next) (t_interval_ st)) tfinal)
          as [[? ->]|[? ->]]; lra. }
      pose proof (multiple_succ k lo) as HS.
      assert (0 <= inject_Z (Z.of_nat k) * lo) as Hknn
        by (apply multiple_nonneg; lra).
      destruct (IH current next next'
                  (update dt next (enqueue next' (exchange_task current st))))
        as (prev' & current' & st' & m & Hrun & Hid & Hend & Hlow & Hup & H01 & H1).
      { by rewrite update_t_interval, enqueue_t_interval, exchange_task_t_interval. }
      { rewrite Hn0. lra. }
      { rewrite Hn0, Hn1.
        destruct (std_min_cases (time_add (t1 next) (t_interval_ st)) tfinal)
          as [[? ->]|[? ->]]; lra. }
      { rewrite Hn1.
        destruct (std_min_cases (time_add (t1 next) (t_interval_ st)) tfinal)
          as [[? ->]|[? ->]]; lra. }
      { rewrite Hn0, Hn1.
        destruct (std_min_cases (time_add (t1 next) (t_interval_ st)) tfinal)
          as [[? ->]|[? ->]]; lra. }
      { rewrite Hn0, Hn1.
        destruct (std_min_cases (time_add (t1 next) (t_interval_ st)) tfinal)
          as [[? ->]|[? ->]]; lra. }
      { rewrite Hn1.
        destruct (std_min_cases (time_add (t1 next) (t_interval_ st)) tfinal)
          as [[? ->]|[? ->]]; lra. }
      exists prev', current', st', (S m).
      pose proof (multiple_succ m lo) as HSl.
      pose proof (multiple_succ m hi) as HSh.
      assert (t1 next' <= t1 next + hi) as Hn1'.
      { rewrite Hn1.
        destruct (std_min_cases (time_add (t1 next) (t_interval_ st)) tfinal)
          as [[? ->]|[? ->]]; lra. }
      specialize (Hfull Hlt). rewrite Hn0 in Hlow.
      split; [|split; [lia|split; [done|split; [lra|split; [lra|done]]]]].
      intros [|fuel] Hfuel; [lia|]. simpl. fold next'. rewrite Eempty.
      apply Hrun. lia.
    + assert (t1 next == tfinal) as Heq by lra.
      exists current, next, st, 0%nat. change (inject_Z (Z.of_nat 0)) with 0.
      split; [|split; [lia|split; [done|split; [lra|split; [lra|done]]]]].
      intros [|fuel] Hfuel; [lia|]. simpl. fold next'.
      assert (epoch_empty next' = true) as ->; [|done].
      unfold epoch_empty. rewrite Hn0, Hn1. times.
      destruct (std_min_cases (time_add (t1 next) (t_interval_ st)) tfinal)
        as [[? ->]|[? ->]]; lra.
Qed.

(** X7: [run(tfinal, dt)] for a [tfinal] after the end of the recorded epoch
    comes back having reached [tfinal], provided the time addition makes
    progress: every rounded sum [t + t_interval_], for [t] between the end
    of the recorded epoch and [tfinal], lies at least [lo > 0] and at most
    [hi] after [t].  [run] then goes through n+1 epochs, where n steps of
    [lo] fit strictly before [tfinal] and n+1 steps of [hi] reach it (the
    rounding can add or take an epoch compared with the exact quotient); the
    epoch it records is not empty, no longer than [hi], and does not start
    before the end of the epoch recorded before. *)
Theorem run_reaches_tfinal time_add lo hi tfinal dt (st : state) :
  0 < lo →
  (∀ t, t1 (epoch_ st) <= t → t <= tfinal →
     t + lo <= time_add t (t_interval_ st) ∧ time_add t (t_interval_ st) <= t + hi) →
  t1 (epoch_ st) < tfinal →
  ∃ fuel0 t st',
    (∀ fuel, (fuel0 ≤ fuel)%nat → run_rounded time_add fuel tfinal dt st = Some (t, st'))
    ∧ t == tfinal
    ∧ (∃ n : nat,
         id (epoch_ st') = (id (epoch_ st) + Z.of_nat (S n))%Z
         ∧ inject_Z (Z.of_nat n) * lo < tfinal - t1 (epoch_ st)
         ∧ tfinal - t1 (epoch_ st) <= inject_Z (Z.of_nat (S n)) * hi)
    ∧ t1 (epoch_ st) <= t0 (epoch_ st')
    ∧ t0 (epoch_ st') < t1 (epoch_ st')
    ∧ t1 (epoch_ st') <= t0 (epoch_ st') + hi.
Proof.
  intros Hlo Hstep Hfinal. unfold run_rounded.
  destruct (time_le tfinal (t1 (epoch_ st))) eqn:Efinal; times; [lra|].
  set (current := next_epoch_rounded time_add tfinal (epoch_ st) (t_interval_ st)).
  set (next := next_epoch_rounded time_add tfinal current (t_interval_ st)).
  assert (t0 current = t1 (epoch_ st)) as Hc0 by done.
  assert (t1 current = std_min (time_add (t1 (epoch_ st)) (t_interval_ st)) tfinal)
    as Hc1 by done.
  assert (id current = (id (epoch_ st) + 1)%Z) as Hcid by done.
  assert (t0 next = t1 current) as Hn0 by done.
  assert (t1 next = std_min (time_add (t1 current) (t_interval_ st)) tfinal)
    as Hn1 by done.
  assert (id next = (id current + 1)%Z) as Hnid by done.
  destruct (Hstep (t1 (epoch_ st))) as [Hl Hu]; [lra..|].
  assert (t1 (epoch_ st) < t1 current ∧ t1 current <= tfinal
          ∧ t1 current <= t1 (epoch_ st) + hi
          ∧ (t1 current < tfinal → t1 (epoch_ st) + lo <= t1 current))
    as (Hc & Hc' & Hc'' & Hcfull).
  { rewrite Hc1.
    destruct (std_min_cases (time_add (t1 (epoch_ st)) (t_interval_ st)) tfinal)
      as [[? ->]|[? ->]]; repeat split; lra. }
  destruct (Hstep (t1 current)) as [Hl' Hu']; [lra..|].
  destruct (Qlt_le_dec (t1 current) tfinal) as [Hlt|Hge].
  - assert (epoch_empty next = false) as ->.
    { unfold epoch_empty. rewrite Hn0, Hn1. times.
      destruct (std_min_cases (time_add (t1 current) (t_interval_ st)) tfinal)
        as [[? ->]|[? ->]]; lra. }
    assert (t1 current < t1 next ∧ t1 next <= tfinal ∧ t1 next <= t1 current + hi
            ∧ (t1 next < tfinal → t1 current + lo <= t1 next))
      as (Hn & Hn' & Hn'' & Hnfull).
    { rewrite Hn1.
      destruct (std_min_cases (time_add (t1 current) (t_interval_ st)) tfinal)
        as [[? ->]|[? ->]]; repeat split; lra. }
    destruct (multiples_unbounded (tfinal - t1 next) lo Hlo) as [k Hk].
    destruct (run_loop_rounded_reaches time_add lo hi (t1 (epoch_ st)) tfinal dt Hlo k
                (epoch_ st) current next
                (update dt current (enqueue next (enqueue current st))))
      as (prev' & current' & st' & m & Hrun & Hid & Hend & Hlow & Hup & H01 & H1).
    { by rewrite update_t_interval, !enqueue_t_interval. }
    { rewrite Hn0. lra. }
    { rewrite Hn0. lra. }
    { done. }
    { rewrite Hn0. lra. }
    { rewrite Hn0. done. }
    { done. }
    exists (S k), (t1 current'), (set_epoch current'
      (exchange_task current' (update dt current' (exchange_task prev' st')))).
    split.
    { intros fuel Hfuel. by rewrite (Hrun fuel Hfuel). }
    simpl. rewrite Hn0 in Hlow.
    assert (0 <= inject_Z (Z.of_nat m) * lo) as Hmnn by (apply multiple_nonneg; lra).
    pose proof (multiple_succ m lo) as HSl.
    pose proof (multiple_succ m hi) as HSh.
    pose proof (multiple_succ (S m) hi) as HSSh.
    specialize (Hcfull Hlt).
    split; [done|]. split; [|split; [lra|split; [done|done]]].
    exists (S m). split; [lia|]. split; lra.
  - assert (t1 current == tfinal) as Heq by lra.
    assert (epoch_empty next = true) as ->.
    { unfold epoch_empty. rewrite Hn0, Hn1. times.
      destruct (std_min_cases (time_add (t1 current) (t_interval_ st)) tfinal)
        as [[? ->]|[? ->]]; lra. }
    exists 0%nat, (t1 current), (set_epoch current
      (exchange_task current (update dt current (enqueue current st)))).
    split; [done|]. unfold set_epoch. cbn [epoch_]. split; [done|].
    split; [|split; [rewrite Hc0; lra|split; [rewrite Hc0; lra|rewrite Hc0; lra]]].
    exists 0%nat. change (inject_Z (Z.of_nat 0)) with 0.
    change (inject_Z (Z.of_nat 1)) with 1.
    split; [lia|]. split; lra.
Qed.

(** X8: with an epoch interval of zero, [run(tfinal, dt)] for a [tfinal]
    after the end of the recorded epoch makes no progress in time: it goes
    through one empty epoch (one round of enqueue, update and exchange),
    advances the epoch id by one and returns the old end of the epoch. *)
Theorem run_with_zero_interval_makes_no_progress fuel tfinal dt (st : state) :
  t_interval_ st == 0 → t1 (epoch_ st) < tfinal →
  ∃ current,
    run fuel tfinal dt st
      = Some (t1 current,
              set_epoch current
                (exchange_task current (update dt current (enqueue current st))))
    ∧ id current = (id (epoch_ st) + 1)%Z
    ∧ t0 current = t1 (epoch_ st)
    ∧ t1 current == t1 (epoch_ st).
Proof.
  intros Hzero Hfinal. unfold run.
  destruct (time_le tfinal (t1 (epoch_ st))) eqn:Efinal; times; [lra|].
  set (current := next_epoch tfinal (epoch_ st) (t_interval_ st)).
  set (next := next_epoch tfinal current (t_interval_ st)).
  pose proof (next_epoch_t1 tfinal (epoch_ st) (t_interval_ st)) as Hc1.
  fold current in Hc1.
  assert (t1 current == t1 (epoch_ st)) as Hcur.
  { destruct (std_min_cases (t1 (epoch_ st) + t_interval_ st) tfinal)
      as [[? Hmin]|[? Hmin]]; rewrite Hmin in Hc1; qlra. }
  assert (epoch_empty next = true) as ->.
  { unfold epoch_empty, next. rewrite next_epoch_t0, next_epoch_t1. times.
    destruct (std_min_cases (t1 current + t_interval_ st) tfinal)
      as [[? ->]|[? ->]]; qlra. }
  by exists current.
Qed.
End run_epochs.

(** ** What no operation changes *)

Section shape_facts.
Context {CG C G : Type} `{!CellGroup CG, !Communicator C, !EventGenerator G}.
Abbreviation state := (simulation_state (CG:=CG) (C:=C) (G:=G)).

Lemma same_shape_refl (st : state) : same_shape st st.
Proof. by repeat split. Qed.

Lemma same_shape_trans (st1 st2 st3 : state) :
  same_shape st1 st2 → same_shape st2 st3 → same_shape st1 st3.
Proof.
  intros (? & ? & ? & ? & ? & ?) (? & ? & ? & ? & ? & ?).
  repeat split; congruence.
Qed.

Lemma enqueue_cell_same_shape next (st : state) i :
  same_shape st (enqueue_cell next st i).
Proof.
  unfold enqueue_cell.
  destruct (pending_events_ st !! i) as [pending|]; [|apply same_shape_refl].
  destruct (event_lanes (id next - 1) st !! i) as [old_events|];
    [|apply same_shape_refl].
  destruct (event_generators_ st !! i) as [generators|] eqn:Egen;
    [|apply same_shape_refl].
  destruct (event_lanes (id next) st !! i) as [lane|]; [|apply same_shape_refl].
  pose proof (merge_cell_events_generators (t0 next) (t1 next) old_events
    (util_sort event_lt pending) generators lane) as Hgen.
  destruct (merge_cell_events _ _ _ _ _ _) as [generators' lane']. simpl in Hgen.
  unfold same_shape, set_event_lanes, event_lanes.
  destruct (parity (id next)); simpl; rewrite ?length_insert;
    repeat split; try done;
    rewrite list_fmap_insert, Hgen, length_fmap;
    apply list_insert_id; by rewrite list_lookup_fmap, Egen.
Qed.

Lemma enqueue_same_shape next (st : state) : same_shape st (enqueue next st).
Proof.
  unfold enqueue. apply (foldl_invariant (same_shape st)); [|apply same_shape_refl].
  intros s i Hs. eapply same_shape_trans; [done|]. apply enqueue_cell_same_shape.
Qed.

Lemma update_groups_length current dt lanes (c : C) i (groups : list CG) store :
  length (update_groups current dt lanes c i groups store).1 = length groups.
Proof.
  revert i store. induction groups as [|g groups IH]; intros i store; simpl; [done|].
  specialize (IH (S i) (store ++ group_spikes
    (group_advance current dt (subrange_view lanes (group_queue_range c i)) g))).
  destruct (update_groups _ _ _ _ _ _ _) as [groups' store']. simpl in *.
  by rewrite IH.
Qed.

Lemma update_same_shape dt current (st : state) : same_shape st (update dt current st).
Proof.
  unfold update.
  pose proof (update_groups_length current dt
    (event_lanes (id current)
       (set_local_spikes (id current)
          (vector_clear (local_spikes (id current) st)) st))
    (communicator_
       (set_local_spikes (id current)
          (vector_clear (local_spikes (id current) st)) st))
    0
    (cell_groups_
       (set_local_spikes (id current)
          (vector_clear (local_spikes (id current) st)) st))
    (local_spikes (id current)
       (set_local_spikes (id current)
          (vector_clear (local_spikes (id current) st)) st))) as Hlen.
  destruct (update_groups _ _ _ _ _ _ _) as [groups store]. simpl in Hlen.
  unfold same_shape, set_local_spikes in *.
  destruct (parity (id current)); simpl in *; by repeat split.
Qed.

Lemma exchange_task_same_shape prev (st : state) :
  same_shape st (exchange_task prev st).
Proof.
  unfold exchange_task. repeat case_match. by repeat split.
Qed.

Lemma run_loop_same_shape fuel tfinal dt prev current next (st : state)
    prev' current' st' :
  run_loop fuel tfinal dt prev current next st = Some (prev', current', st') →
  same_shape st st'.
Proof.
  revert prev current next st.
  induction fuel as [|fuel IH]; intros prev current next st; simpl; [done|].
  destruct (epoch_empty _).
  { intros [= <- <- <-]. apply same_shape_refl. }
  intros Hloop. apply IH in Hloop.
  eapply same_shape_trans; [|done].
  eapply same_shape_trans; [|apply update_same_shape].
  eapply same_shape_trans; [|apply enqueue_same_shape].
  apply exchange_task_same_shape.
Qed.

Lemma set_epoch_same_shape e (st : state) : same_shape st (set_epoch e st).
Proof. by repeat split. Qed.

Lemma run_same_shape fuel tfinal dt (st : state) t st' :
  run fuel tfinal dt st = Some (t, st') → same_shape st st'.
Proof.
  unfold run. destruct (time_le _ _).
  { intros [= <- <-]. apply same_shape_refl. }
  destruct (epoch_empty _).
  { intros [= <- <-].
    eapply same_shape_trans; [|apply set_epoch_same_shape].
    eapply same_shape_trans; [|apply exchange_task_same_shape].
    eapply same_shape_trans; [|apply update_same_shape].
    apply enqueue_same_shape. }
  destruct (run_loop _ _ _ _ _ _ _) as [[[prev' current'] st1]|] eqn:Eloop; [|done].
  intros [= <- <-]. apply run_loop_same_shape in Eloop.
  eapply same_shape_trans; [|apply set_epoch_same_shape].
  eapply same_shape_trans; [|apply exchange_task_same_shape].
  eapply same_shape_trans; [|apply update_same_shape].
  eapply same_shape_trans; [|apply exchange_task_same_shape].
  eapply same_shape_trans; [|done].
  eapply same_shape_trans; [|apply update_same_shape].
  eapply same_shape_trans; [|apply enqueue_same_shape].
  apply enqueue_same_shape.
Qed.

Lemma inject_events_same_shape events (st : state) :
  same_shape st (inject_events events st).2.
Proof.
  rewrite inject_events_flat.
  destruct (inject_flat_state (flatten_events events) st) as (pre & _ & ->).
  destruct (inject_all_frame pre st) as (? & Hl & ? & Hg & ? & Hgen & ?).
  destruct (inject_all_gid_to_local pre st) as [? ?].
  unfold same_shape. by rewrite Hl, Hg, Hgen.
Qed.

Lemma reset_same_shape (st : state) : same_shape st (reset st).
Proof.
  unfold same_shape, reset. simpl. rewrite !length_fmap.
  repeat split; try done. rewrite <- list_fmap_compose.
  apply list_fmap_ext. intros i lane _. simpl. by rewrite length_fmap.
Qed.

Lemma public_step_same_shape (st st' : state) :
  public_step st st' → same_shape st st'.
Proof.
  intros [fuel tfinal dt s r s' Hrun|evs s r s' Hinject|s].
  - unfold simulation_run in Hrun. destruct (time_le dt 0).
    { simplify_eq. apply same_shape_refl. }
    destruct (run fuel tfinal dt s) as [[t s'']|] eqn:Erun; [|done].
    simplify_eq. by eapply run_same_shape.
  - replace s' with (inject_events evs s).2 by by rewrite Hinject.
    apply inject_events_same_shape.
  - apply reset_same_shape.
Qed.

Lemma public_steps_same_shape (st st' : state) :
  rtc public_step st st' → same_shape st st'.
Proof.
  induction 1 as [|st st1 st' Hstep _ IH]; [apply same_shape_refl|].
  eapply same_shape_trans; [|done]. by apply public_step_same_shape.
Qed.

(** X9: no sequence of calls of [run], [inject_events] and [reset] changes
    what the constructor fixed: the map of the local gids, the epoch
    interval, the number of cell groups, the number of generators of every
    cell and the number of lanes of both lane buffers stay as they are. *)
Theorem public_operations_keep_shape (st st' : state) :
  rtc public_step st st' →
  gid_to_local_ st' = gid_to_local_ st
  ∧ t_interval_ st' = t_interval_ st
  ∧ length (cell_groups_ st') = length (cell_groups_ st)
  ∧ length <$> event_generators_ st' = length <$> event_generators_ st
  ∧ length (event_lanes_ st').1 = length (event_lanes_ st).1
  ∧ length (event_lanes_ st').2 = length (event_lanes_ st).2.
Proof. apply public_steps_same_shape. Qed.
End shape_facts.

(** ** The enqueue task, cell by cell *)

Lemma parity_pred (k : Z) : parity (k - 1) = negb (parity k).
Proof.
  unfold parity. change 1%Z with (Z.ones 1) at 2 3.
  rewrite !Z.land_ones by lia. change (2 ^ 1)%Z with 2%Z.
  destruct (Z.eqb_spec ((k - 1) `mod` 2) 0), (Z.eqb_spec (k `mod` 2) 0); simpl;
    try done; Z.div_mod_to_equations; lia.
Qed.

Section enqueue_facts.
Context {CG C G : Type} `{!CellGroup CG, !Communicator C, !EventGenerator G}.
Abbreviation state := (simulation_state (CG:=CG) (C:=C) (G:=G)).

Lemma event_lanes_set_other k lanes (st : state) :
  event_lanes (k - 1) (set_event_lanes k lanes st) = event_lanes (k - 1) st.
Proof.
  unfold event_lanes, set_event_lanes. rewrite parity_pred.
  by destruct (parity k).
Qed.

Lemma event_lanes_set_same k lanes (st : state) :
  event_lanes k (set_event_lanes k lanes st) = lanes.
Proof. unfold event_lanes, set_event_lanes. by destruct (parity k). Qed.

(** The body of the loop for cell [j] leaves the communicator, the lane
    buffer of the epoch before and the vectors of every other cell alone. *)
Lemma enqueue_cell_elsewhere next (st : state) j :
  communicator_ (enqueue_cell next st j) = communicator_ st
  ∧ event_lanes (id next - 1) (enqueue_cell next st j) = event_lanes (id next - 1) st
  ∧ ∀ i, i ≠ j →
      pending_events_ (enqueue_cell next st j) !! i = pending_events_ st !! i
      ∧ event_generators_ (enqueue_cell next st j) !! i = event_generators_ st !! i
      ∧ event_lanes (id next) (enqueue_cell next st j) !! i
          = event_lanes (id next) st !! i.
Proof.
  unfold enqueue_cell.
  destruct (pending_events_ st !! j) as [pending|]; [|done].
  destruct (event_lanes (id next - 1) st !! j) as [old_events|]; [|done].
  destruct (event_generators_ st !! j) as [generators|]; [|done].
  destruct (event_lanes (id next) st !! j) as [lane|]; [|done].
  destruct (merge_cell_events _ _ _ _ _ _) as [generators' lane'].
  split; [|split].
  - unfold set_event_lanes. by destruct (parity (id next)).
  - change (event_lanes (id next - 1) (set_pending_events ?p ?s))
      with (event_lanes (id next - 1) s).
    by rewrite event_lanes_set_other.
  - intros i Hne. assert (j ≠ i) as Hne' by done.
    unfold set_event_lanes, event_lanes.
    destruct (parity (id next)); simpl;
      by rewrite list_lookup_alter_ne, !list_lookup_insert_ne.
Qed.

(** The body of the loop for cell [i]: the pending buffer is emptied, the
    lane and the generators are those [merge_cell_events] returns for the
    sorted pending events. *)
Lemma enqueue_cell_here next (st : state) i pending old_events generators lane :
  pending_events_ st !! i = Some pending →
  event_lanes (id next - 1) st !! i = Some old_events →
  event_generators_ st !! i = Some generators →
  event_lanes (id next) st !! i = Some lane →
  pending_events_ (enqueue_cell next st i) !! i = Some []
  ∧ event_generators_ (enqueue_cell next st i) !! i
      = Some (merge_cell_events (t0 next) (t1 next) old_events
                (util_sort event_lt pending) generators lane).1
  ∧ event_lanes (id next) (enqueue_cell next st i) !! i
      = Some (merge_cell_events (t0 next) (t1 next) old_events
                (util_sort event_lt pending) generators lane).2.
Proof.
  intros Hp Ho Hg Hl. unfold enqueue_cell. rewrite Hp, Ho, Hg, Hl.
  destruct (merge_cell_events _ _ _ _ _ _) as [generators' lane'].
  apply lookup_lt_Some in Hg as Hg'. apply lookup_lt_Some in Hl as Hl'.
  unfold set_event_lanes, event_lanes in *.
  destruct (parity (id next)); simpl;
    by rewrite list_lookup_alter_eq, Hp, !list_lookup_insert_eq.
Qed.

Lemma enqueue_cells_elsewhere next (l : list nat) (st : state) :
  communicator_ (foldl (enqueue_cell next) st l) = communicator_ st
  ∧ event_lanes (id next - 1) (foldl (enqueue_cell next) st l)
      = event_lanes (id next - 1) st
  ∧ ∀ i, i ∉ l →
      pending_events_ (foldl (enqueue_cell next) st l) !! i = pending_events_ st !! i
      ∧ event_generators_ (foldl (enqueue_cell next) st l) !! i
          = event_generators_ st !! i
      ∧ event_lanes (id next) (foldl (enqueue_cell next) st l) !! i
          = event_lanes (id next) st !! i.
Proof.
  revert st. induction l as [|j l IH]; intros st; simpl; [done|].
  destruct (IH (enqueue_cell next st j)) as (-> & -> & Helse).
  destruct (enqueue_cell_elsewhere next st j) as (-> & -> & Hj).
  split; [done|]. split; [done|].
  intros i [Hne Hnin]%not_elem_of_cons.
  destruct (Helse i Hnin) as (-> & -> & ->). by apply Hj.
Qed.

Lemma enqueue_at_cell next (st : state) i pending old_events generators lane :
  (i < num_local_cells (communicator_ st))%nat →
  pending_events_ st !! i = Some pending →
  event_lanes (id next - 1) st !! i = Some old_events →
  event_generators_ st !! i = Some generators →
  event_lanes (id next) st !! i = Some lane →
  pending_events_ (enqueue next st) !! i = Some []
  ∧ event_generators_ (enqueue next st) !! i
      = Some (merge_cell_events (t0 next) (t1 next) old_events
                (util_sort event_lt pending) generators lane).1
  ∧ event_lanes (id next) (enqueue next st) !! i
      = Some (merge_cell_events (t0 next) (t1 next) old_events
                (util_sort event_lt pending) generators lane).2.
Proof.
  intros Hi Hp Ho Hg Hl. unfold enqueue.
  set (n := num_local_cells (communicator_ st)) in *.
  replace (seq 0 n) with (seq 0 i ++ [i] ++ seq (S i) (n - S i)); last first.
  { change ([i] ++ seq (S i) (n - S i)) with (seq i (S (n - S i))).
    rewrite <- seq_app. f_equal. lia. }
  rewrite !foldl_app. simpl.
  set (st1 := foldl (enqueue_cell next) st (seq 0 i)).
  destruct (enqueue_cells_elsewhere next (seq 0 i) st) as (_ & Ho1 & H1).
  destruct (H1 i) as (Hp1 & Hg1 & Hl1).
  { intros Hin%elem_of_seq. lia. }
  fold st1 in Ho1, Hp1, Hg1, Hl1.
  destruct (enqueue_cells_elsewhere next (seq (S i) (n - S i))
              (enqueue_cell next st1 i)) as (_ & _ & H2).
  destruct (H2 i) as (-> & -> & ->).
  { intros Hin%elem_of_seq. lia. }
  apply enqueue_cell_here; congruence.
Qed.

(** X10: the enqueue task for epoch [next] delivers, for every local cell
    whose vectors exist, the pending events to the lane of that epoch: after
    it the cell's pending buffer is empty, and its lane holds, up to order,
    the events of its lane of the epoch before from [t0] on, its pending
    events and the events its generators yield for the epoch.  The lane
    buffer of the epoch before, which the update task may be reading, is
    not written. *)
Theorem enqueue_delivers_pending_events next (st : state) i pending old_events
    generators :
  (i < num_local_cells (communicator_ st))%nat →
  pending_events_ st !! i = Some pending →
  event_lanes (id next - 1) st !! i = Some old_events →
  event_generators_ st !! i = Some generators →
  is_Some (event_lanes (id next) st !! i) →
  time_sorted old_events →
  pending_events_ (enqueue next st) !! i = Some []
  ∧ (∃ lane,
       event_lanes (id next) (enqueue next st) !! i = Some lane
       ∧ lane ≡ₚ List.filter (λ e, time_le (t0 next) (time e)) old_events
                   ++ pending
                   ++ concat (generator_spans (t0 next) (t1 next) generators))
  ∧ event_generators_ (enqueue next st) !! i
      = Some ((λ g, (events (t0 next) (t1 next) g).2) <$> generators)
  ∧ event_lanes (id next - 1) (enqueue next st) = event_lanes (id next - 1) st.
Proof.
  intros Hi Hp Ho Hg [lane Hl] Hsorted.
  destruct (enqueue_at_cell next st i pending old_events generators lane)
    as (Hp' & Hg' & Hl'); [done..|].
  split; [done|]. split; [|split].
  - eexists. split; [done|].
    rewrite merge_cell_events_Permutation by done.
    by rewrite util_sort_Permutation.
  - by rewrite Hg', merge_cell_events_generators.
  - unfold enqueue. apply enqueue_cells_elsewhere.
Qed.
End enqueue_facts.

(** ** The update task *)

Section update_facts.
Context {CG C G : Type} `{!CellGroup CG, !Communicator C, !EventGenerator G}.
Abbreviation state := (simulation_state (CG:=CG) (C:=C) (G:=G)).

Lemma update_groups_spec current dt lanes (c : C) (groups : list CG) i store :
  update_groups current dt lanes c i groups store =
    (imap (λ j g, group_clear_spikes
                    (group_advance current dt
                       (subrange_view lanes (group_queue_range c (i + j))) g))
          groups,
     store ++ concat
       (imap (λ j g, group_spikes
                       (group_advance current dt
                          (subrange_view lanes (group_queue_range c (i + j))) g))
             groups)).
Proof.
  revert i store. induction groups as [|g groups IH]; intros i store.
  { simpl. by rewrite app_nil_r. }
  cbn [update_groups update_group]. rewrite IH, !imap_cons. cbn [concat].
  rewrite Nat.add_0_r, <- app_assoc. f_equal.
  - f_equal. apply imap_ext. intros j x _. simpl. by rewrite Nat.add_succ_r.
  - do 3 f_equal. apply imap_ext. intros j x _. simpl. by rewrite Nat.add_succ_r.
Qed.

Lemma update_unfold dt current (st : state) :
  update dt current st =
    set_local_spikes (id current)
      (update_groups current dt (event_lanes (id current) st) (communicator_ st)
         0 (cell_groups_ st) []).2
      (set_cell_groups
         (update_groups current dt (event_lanes (id current) st) (communicator_ st)
            0 (cell_groups_ st) []).1
         (set_local_spikes (id current) [] st)).
Proof.
  unfold update, set_local_spikes, local_spikes, event_lanes, vector_clear.
  destruct (parity (id current)); simpl;
    by destruct (update_groups _ _ _ _ _ _ _).
Qed.

Lemma update_in_order_unfold order dt current (st : state) :
  update_in_order order dt current st =
    set_local_spikes (id current)
      (foldl (update_group_at current dt (event_lanes (id current) st)
                (communicator_ st)) (cell_groups_ st, []) order).2
      (set_cell_groups
         (foldl (update_group_at current dt (event_lanes (id current) st)
                   (communicator_ st)) (cell_groups_ st, []) order).1
         (set_local_spikes (id current) [] st)).
Proof.
  unfold update_in_order, set_local_spikes, local_spikes, event_lanes, vector_clear.
  destruct (parity (id current)); simpl;
    by destruct (foldl _ _ _).
Qed.

(** The groups of a set of distinct indices, taken in any order: each of
    them is advanced once, from the state it had before, and the store
    receives their spikes in the order taken. *)
Lemma update_groups_at_spec current dt lanes (c : C) order (groups : list CG) store :
  NoDup order →
  foldl (update_group_at current dt lanes c) (groups, store) order
  = (imap (λ j g, if decide (j ∈ order)
                  then group_clear_spikes
                         (group_advance current dt
                            (subrange_view lanes (group_queue_range c j)) g)
                  else g) groups,
     store ++ concat
       ((λ j, from_option
                (λ g, group_spikes
                        (group_advance current dt
                           (subrange_view lanes (group_queue_range c j)) g))
                [] (groups !! j)) <$> order)).
Proof.
  intros Hnodup. revert groups store.
  induction Hnodup as [|i order Hi Hnodup IH]; intros groups store.
  { simpl. rewrite app_nil_r. f_equal. apply list_eq. intros j.
    rewrite list_lookup_imap. destruct (groups !! j); [|done]. simpl.
    done. }
  cbn [foldl]. unfold update_group_at at 2. cbn [fst snd].
  destruct (groups !! i) as [g|] eqn:Hg.
  - unfold update_group. rewrite IH. f_equal.
    + apply list_eq. intros j. rewrite !list_lookup_imap.
      destruct (decide (j = i)) as [->|Hne].
      * rewrite list_lookup_insert_eq by (by eapply lookup_lt_Some).
        rewrite Hg. simpl. rewrite decide_False by done.
        by rewrite decide_True by (apply elem_of_cons; by left).
      * rewrite list_lookup_insert_ne by done.
        destruct (groups !! j); [|done]. simpl.
        destruct (decide (j ∈ order)) as [Hin|Hin].
        -- by rewrite decide_True by (apply elem_of_cons; by right).
        -- rewrite decide_False; [done|].
           intros [?|?]%elem_of_cons; done.
    + rewrite fmap_cons, Hg. cbn [from_option concat]. rewrite <- app_assoc.
      do 3 f_equal. apply Forall_fmap_ext, Forall_forall. intros j Hj.
      rewrite list_lookup_insert_ne; [done|]. by intros ->.
  - rewrite IH. f_equal.
    + apply list_eq. intros j. rewrite !list_lookup_imap.
      destruct (groups !! j) eqn:Hj; [|done]. simpl.
      destruct (decide (j ∈ order)) as [Hin|Hin].
      * by rewrite decide_True by (apply elem_of_cons; by right).
      * rewrite decide_False; [done|].
        intros [->|?]%elem_of_cons; [congruence|done].
    + by rewrite fmap_cons, Hg.
Qed.

Lemma spikes_by_index {A B} (F : nat → A → list B) (l : list A) :
  (λ j, from_option (F j) [] (l !! j)) <$> seq 0 (length l) = imap F l.
Proof.
  apply list_eq. intros j. rewrite list_lookup_fmap, list_lookup_imap.
  destruct (l !! j) as [x|] eqn:Hj.
  - rewrite lookup_seq_lt by (by eapply lookup_lt_Some). simpl. by rewrite Hj.
  - rewrite lookup_seq_ge; [done|]. by apply lookup_ge_None.
Qed.

(** X11: the update task for epoch [current] advances every cell group
    once, each over its own range of the lanes of that epoch, and clears the
    group's spikes, in whatever order the parallel loop takes the groups.
    The groups end in the same state for every order; the spike store of
    that epoch's parity ends up holding, up to order, exactly the spikes of
    this advance, whatever it held before (the order of the spikes in the
    store depends on the order of the loop and is not stated); the store of
    the other parity is kept.  The epoch, the lanes, the pending buffers,
    the generators and the communicator are not written.  Taking the groups
    by ascending index gives [update]. *)
Theorem update_stores_the_spikes_of_the_epoch order dt current (st : state) :
  order ≡ₚ seq 0 (length (cell_groups_ st)) →
  cell_groups_ (update_in_order order dt current st)
    = imap (λ j g, group_clear_spikes
                     (group_advance current dt
                        (subrange_view (event_lanes (id current) st)
                           (group_queue_range (communicator_ st) j)) g))
        (cell_groups_ st)
  ∧ local_spikes (id current) (update_in_order order dt current st)
    ≡ₚ concat
        (imap (λ j g, group_spikes
                        (group_advance current dt
                           (subrange_view (event_lanes (id current) st)
                              (group_queue_range (communicator_ st) j)) g))
           (cell_groups_ st))
  ∧ local_spikes (id current - 1) (update_in_order order dt current st)
    = local_spikes (id current - 1) st
  ∧ epoch_ (update_in_order order dt current st) = epoch_ st
  ∧ event_lanes_ (update_in_order order dt current st) = event_lanes_ st
  ∧ pending_events_ (update_in_order order dt current st) = pending_events_ st
  ∧ event_generators_ (update_in_order order dt current st) = event_generators_ st
  ∧ communicator_ (update_in_order order dt current st) = communicator_ st
  ∧ update_in_order (seq 0 (length (cell_groups_ st))) dt current st
    = update dt current st.
Proof.
  intros Horder.
  assert (∀ order', order' ≡ₚ seq 0 (length (cell_groups_ st)) →
    foldl (update_group_at current dt (event_lanes (id current) st)
             (communicator_ st)) (cell_groups_ st, []) order'
    = (imap (λ j g, group_clear_spikes
                      (group_advance current dt
                         (subrange_view (event_lanes (id current) st)
                            (group_queue_range (communicator_ st) j)) g))
         (cell_groups_ st),
       concat
         ((λ j, from_option
                  (λ g, group_spikes
                          (group_advance current dt
                             (subrange_view (event_lanes (id current) st)
                                (group_queue_range (communicator_ st) j)) g))
                  [] (cell_groups_ st !! j)) <$> order'))) as Hfold.
  { intros order' Horder'. rewrite update_groups_at_spec.
    - f_equal. apply imap_ext. intros j g Hj. simpl.
      rewrite decide_True; [done|]. rewrite Horder'.
      apply elem_of_seq. apply lookup_lt_Some in Hj. lia.
    - rewrite Horder'. apply NoDup_seq. }
  rewrite !update_in_order_unfold, update_unfold, update_groups_spec.
  rewrite (Hfold order Horder), (Hfold _ (reflexivity _)), spikes_by_index.
  cbn [fst snd app].
  assert (concat
            ((λ j, from_option
                     (λ g, group_spikes
                             (group_advance current dt
                                (subrange_view (event_lanes (id current) st)
                                   (group_queue_range (communicator_ st) j)) g))
                     [] (cell_groups_ st !! j)) <$> order)
          ≡ₚ concat
               (imap (λ j g, group_spikes
                               (group_advance current dt
                                  (subrange_view (event_lanes (id current) st)
                                     (group_queue_range (communicator_ st) j)) g))
                  (cell_groups_ st))) as Hperm.
  { rewrite <- spikes_by_index. by rewrite Horder. }
  unfold set_local_spikes, local_spikes. rewrite parity_pred.
  destruct (parity (id current)); simpl; by repeat split.
Qed.

(** Setting the cell groups or a spike store commutes with the enqueue
    task, which reads and writes neither. *)
Lemma enqueue_cell_set_cell_groups next groups (st : state) i :
  enqueue_cell next (set_cell_groups groups st) i
    = set_cell_groups groups (enqueue_cell next st i).
Proof.
  unfold enqueue_cell, event_lanes, set_event_lanes. simpl.
  repeat case_match; done.
Qed.

Lemma enqueue_cell_set_local_spikes next k spikes (st : state) i :
  enqueue_cell next (set_local_spikes k spikes st) i
    = set_local_spikes k spikes (enqueue_cell next st i).
Proof.
  unfold enqueue_cell, event_lanes, set_event_lanes, set_local_spikes.
  destruct (parity k); simpl; repeat case_match; done.
Qed.

Lemma enqueue_commutes next (f : state → state) (st : state) :
  (∀ s, communicator_ (f s) = communicator_ s) →
  (∀ s i, enqueue_cell next (f s) i = f (enqueue_cell next s i)) →
  enqueue next (f st) = f (enqueue next st).
Proof.
  intros Hc Hf. unfold enqueue. rewrite Hc.
  generalize (seq 0 (num_local_cells (communicator_ st))). intros l.
  revert st. induction l as [|i l IH]; intros st; simpl; [done|].
  by rewrite Hf, IH.
Qed.

Lemma enqueue_cell_groups_spikes next (st : state) :
  cell_groups_ (enqueue next st) = cell_groups_ st
  ∧ local_spikes_ (enqueue next st) = local_spikes_ st.
Proof.
  unfold enqueue.
  apply (foldl_invariant
    (λ s : state, cell_groups_ s = cell_groups_ st
                  ∧ local_spikes_ s = local_spikes_ st)); [|done].
  intros s i [<- <-]. unfold enqueue_cell, set_event_lanes.
  repeat case_match; done.
Qed.

(** X12: the two tasks [run] starts side by side, the enqueue task for the
    following epoch and the update task for the current one, commute: run
    one after the other in either order they leave the same state.  The
    enqueue task writes the lanes of the following epoch's parity, the
    pending buffers and the generators; the update task reads the lanes of
    the current epoch's parity and writes the groups and a spike store. *)
Theorem enqueue_next_and_update_current_commute dt current next (st : state) :
  id next = (id current + 1)%Z →
  update dt current (enqueue next st) = enqueue next (update dt current st).
Proof.
  intros Hid. rewrite !update_unfold.
  assert (event_lanes (id current) (enqueue next st) = event_lanes (id current) st)
    as ->.
  { replace (id current) with (id next - 1)%Z by lia.
    unfold enqueue. apply enqueue_cells_elsewhere. }
  assert (communicator_ (enqueue next st) = communicator_ st) as ->.
  { unfold enqueue. apply enqueue_cells_elsewhere. }
  destruct (enqueue_cell_groups_spikes next st) as [-> _].
  set (r := update_groups _ _ _ _ _ _ _).
  symmetry.
  rewrite (enqueue_commutes next (set_local_spikes (id current) r.2));
    [|intros s; unfold set_local_spikes; by destruct (parity _)
     |intros; apply enqueue_cell_set_local_spikes].
  rewrite (enqueue_commutes next (set_cell_groups r.1));
    [|done|intros; apply enqueue_cell_set_cell_groups].
  rewrite (enqueue_commutes next (set_local_spikes (id current) []));
    [|intros s; unfold set_local_spikes; by destruct (parity _)
     |intros; apply enqueue_cell_set_local_spikes].
  done.
Qed.
End update_facts.

(** ** The constructor: the index of the local gids *)

Lemma tag_groups_gids j0 groups : (tag_groups j0 groups).*1 = concat groups.
Proof.
  revert j0. induction groups as [|gids groups IH]; intros j0; simpl; [done|].
  rewrite fmap_app, IH, <- list_fmap_compose. f_equal.
  clear. induction gids as [|gid gids IH]; [done|].
  rewrite fmap_cons. simpl. f_equal. apply IH.
Qed.

Lemma tag_groups_lookup j0 groups j gids k gid :
  groups !! j = Some gids → gids !! k = Some gid →
  tag_groups j0 groups !! (length (concat (take j groups)) + k)%nat
    = Some (gid, (j0 + j)%nat).
Proof.
  revert j0 j. induction groups as [|gids0 groups IH]; intros j0 j Hj Hk; [done|].
  destruct j as [|j]; simpl in *.
  - simplify_eq. rewrite lookup_app_l.
    + by rewrite list_lookup_fmap, Hk, Nat.add_0_r.
    + rewrite length_fmap. by eapply lookup_lt_Some.
  - rewrite length_app, <- Nat.add_assoc, lookup_app_r; rewrite length_fmap; [|lia].
    replace (length gids0 + (length (concat (take j groups)) + k) - length gids0)%nat
      with (length (concat (take j groups)) + k)%nat by lia.
    rewrite (IH (S j0) j) by done. do 2 f_equal. lia.
Qed.

Lemma tag_groups_inv j0 groups p gid j :
  tag_groups j0 groups !! p = Some (gid, j) →
  (j0 ≤ j)%nat ∧ ∃ gids, groups !! (j - j0)%nat = Some gids ∧ gid ∈ gids.
Proof.
  revert j0 p. induction groups as [|gids0 groups IH]; intros j0 p Hp; [done|].
  simpl in Hp. apply lookup_app_Some in Hp as [Hp|[_ Hp]].
  - rewrite list_lookup_fmap in Hp. destruct (gids0 !! p) as [gid'|] eqn:E; [|done].
    simpl in Hp. simplify_eq. split; [done|]. exists gids0.
    rewrite Nat.sub_diag. split; [done|]. by eapply list_elem_of_lookup_2.
  - apply IH in Hp as (Hle & gids & Hg & Hin). split; [lia|]. exists gids.
    replace (j - j0)%nat with (S (j - S j0)) by lia. done.
Qed.

Section constructor_facts.
Context {CG C G : Type}
  `{!CellGroup CG, !Communicator C, !EventGenerator G, !CommunicatorDelay C}.
Abbreviation state := (simulation_state (CG:=CG) (C:=C) (G:=G)).
Context (event_generators : N → list G) (resolve_label : N → G → G).

Lemma index_groups_tagged groups j0 inner :
  foldl (index_group event_generators resolve_label) (j0, inner) groups
    = ((j0 + length groups)%nat,
       index_tagged event_generators resolve_label inner (tag_groups j0 groups)).
Proof.
  revert j0 inner. induction groups as [|gids groups IH]; intros j0 inner; simpl.
  { by rewrite Nat.add_0_r. }
  rewrite IH. unfold index_tagged. rewrite foldl_app, foldl_fmap. simpl.
  f_equal. lia.
Qed.

(** The loop over the tagged gids, started at the local index [k0]. *)
Lemma index_tagged_spec l k0 m0 g0 :
  ∃ m' g',
    index_tagged event_generators resolve_label (k0, m0, g0) l
      = ((k0 + length l)%nat, m', g')
    ∧ length g' = length g0
    ∧ (∀ gid, gid ∉ l.*1 → m' !! gid = m0 !! gid)
    ∧ (∀ gid, gid ∈ l.*1 → is_Some (m' !! gid))
    ∧ (NoDup l.*1 → ∀ p gid j, l !! p = Some (gid, j) →
         m' !! gid = Some (mk_gid_local_info (k0 + p) j))
    ∧ (∀ gid info, m' !! gid = Some info →
         m0 !! gid = Some info
         ∨ ∃ p, l !! p = Some (gid, group_index info)
                ∧ cell_index info = (k0 + p)%nat)
    ∧ (∀ q, (q < k0)%nat → g' !! q = g0 !! q)
    ∧ (∀ p gid j, l !! p = Some (gid, j) → (k0 + p < length g0)%nat →
         g' !! (k0 + p)%nat = Some (resolve_label gid <$> event_generators gid)).
Proof.
  revert k0 m0 g0. induction l as [|[gid0 j0] l IH]; intros k0 m0 g0.
  { exists m0, g0. rewrite Nat.add_0_r. repeat split; try done; [|auto].
    by intros gid ?%elem_of_nil. }
  unfold index_tagged in *. simpl.
  destruct (IH (S k0) (<[gid0 := mk_gid_local_info k0 j0]> m0)
              (<[k0 := resolve_label gid0 <$> event_generators gid0]> g0))
    as (m' & g' & -> & Hlen & Helse & Hin & Hhere & Hinv & Hbefore & Hgens).
  rewrite length_insert in Hlen, Hgens.
  exists m', g'. split; [f_equal; f_equal; lia|]. split; [done|].
  split; [|split; [|split; [|split; [|split]]]].
  - intros gid [Hne Hnin]%not_elem_of_cons.
    rewrite Helse by done. by rewrite lookup_insert_ne.
  - intros gid Hgid. destruct (decide (gid ∈ l.*1)) as [?|Hnin]; [by apply Hin|].
    simpl in Hgid. apply elem_of_cons in Hgid as [->|?]; [|done].
    rewrite Helse by done. simpl. by rewrite lookup_insert_eq.
  - intros [Hnin Hnodup]%NoDup_cons [|p] gid j Hp; simpl in Hp.
    + simplify_eq. rewrite Helse by done.
      by rewrite lookup_insert_eq, Nat.add_0_r.
    + rewrite (Hhere Hnodup p gid j Hp). do 2 f_equal. lia.
  - intros gid info Hm. apply Hinv in Hm as [Hm|(p & Hp & Hc)].
    + apply lookup_insert_Some in Hm as [[<- <-]|[_ Hm]]; [|by left].
      right. exists 0%nat. simpl. split; [done|lia].
    + right. exists (S p). split; [done|lia].
  - intros q Hq. rewrite Hbefore by lia. apply list_lookup_insert_ne. lia.
  - intros [|p] gid j Hp Hlt; simpl in Hp.
    + simplify_eq. rewrite Nat.add_0_r in *. rewrite Hbefore by lia.
      by apply list_lookup_insert_eq.
    + replace (k0 + S p)%nat with (S k0 + p)%nat by lia.
      apply (Hgens p gid j Hp). lia.
Qed.

(** The fields of the constructed state. *)
Lemma construct_fields groups (cell_groups : list CG) (communicator : C) :
  ∃ m' g',
    index_tagged event_generators resolve_label
      (0%nat, ∅, replicate (num_local_cells communicator) [])
      (tag_groups 0 groups)
      = (length (concat groups), m', g')
    ∧ construct groups event_generators resolve_label cell_groups communicator
      = mk_state epoch_default (min_delay communicator / 2) cell_groups g' m'
          communicator (replicate (num_local_cells communicator) [])
          (replicate (num_local_cells communicator) [],
           replicate (num_local_cells communicator) []) ([], []).
Proof.
  destruct (index_tagged_spec (tag_groups 0 groups) 0 ∅
              (replicate (num_local_cells communicator) []))
    as (m' & g' & Heq & _).
  exists m', g'. split.
  - rewrite Heq. simpl. by rewrite <- (tag_groups_gids 0), length_fmap.
  - unfold construct. by rewrite index_groups_tagged, Heq.
Qed.

(** X13: the constructor numbers the local cells in the order of the
    decomposition.  When no gid occurs twice, the gid at position [k] of
    group [j] is mapped to the group index [j] and to the cell index that
    counts the gids of the groups before plus [k]; and whether or not gids
    repeat, the generators stored at that cell index (when it is below the
    number of local cells) are the ones the recipe gives for that gid, with
    their labels resolved for it. *)
Theorem construct_numbers_cells_in_order groups (cell_groups : list CG)
    (communicator : C) j gids k gid0 :
  groups !! j = Some gids → gids !! k = Some gid0 →
  (NoDup (concat groups) →
     gid_to_local_
       (construct groups event_generators resolve_label cell_groups communicator)
       !! gid0
     = Some (mk_gid_local_info (length (concat (take j groups)) + k) j))
  ∧ ((length (concat (take j groups)) + k < num_local_cells communicator)%nat →
     event_generators_
       (construct groups event_generators resolve_label cell_groups communicator)
       !! (length (concat (take j groups)) + k)%nat
     = Some (resolve_label gid0 <$> event_generators gid0)).
Proof.
  intros Hj Hk.
  pose proof (tag_groups_lookup 0 groups j gids k gid0 Hj Hk) as Hp.
  destruct (construct_fields groups cell_groups communicator)
    as (m' & g' & Heq & ->). simpl.
  destruct (index_tagged_spec (tag_groups 0 groups) 0 ∅
              (replicate (num_local_cells communicator) []))
    as (m'' & g'' & Heq' & _ & _ & _ & Hhere & _ & _ & Hgens).
  rewrite Heq in Heq'. simplify_eq. split.
  - intros Hnodup. rewrite <- (tag_groups_gids 0) in Hnodup.
    by rewrite (Hhere Hnodup _ _ _ Hp).
  - intros Hlt. apply (Hgens _ _ _ Hp). by rewrite length_replicate.
Qed.

Lemma construct_gid_map groups (cell_groups : list CG)
    (communicator : C) gid0 :
  (gid0 ∉ concat groups →
     gid_to_local_
       (construct groups event_generators resolve_label cell_groups communicator)
       !! gid0 = None)
  ∧ (gid0 ∈ concat groups →
     is_Some (gid_to_local_
       (construct groups event_generators resolve_label cell_groups communicator)
       !! gid0))
  ∧ (∀ info,
     gid_to_local_
       (construct groups event_generators resolve_label cell_groups communicator)
       !! gid0 = Some info →
     (cell_index info < length (concat groups))%nat
     ∧ (group_index info < length groups)%nat
     ∧ ∃ gids, groups !! group_index info = Some gids ∧ gid0 ∈ gids).
Proof.
  destruct (construct_fields groups cell_groups communicator)
    as (m' & g' & Heq & ->). simpl.
  destruct (index_tagged_spec (tag_groups 0 groups) 0 ∅
              (replicate (num_local_cells communicator) []))
    as (m'' & g'' & Heq' & _ & Helse & Hin & _ & Hinv & _).
  rewrite Heq in Heq'. simplify_eq. rewrite (tag_groups_gids 0) in Helse, Hin.
  split; [|split; [by apply Hin|]].
  - intros Hnin. by rewrite Helse.
  - intros info Hm. apply Hinv in Hm as [Hm|(p & Hp & Hc)]; [done|].
    apply lookup_lt_Some in Hp as Hlt.
    rewrite <- (length_fmap fst), (tag_groups_gids 0) in Hlt.
    apply tag_groups_inv in Hp as (_ & gids & Hg & Hgid).
    rewrite Nat.sub_0_r in Hg. split; [lia|]. split; [|by exists gids].
    by eapply lookup_lt_Some.
Qed.

(** X14: the map of the local gids holds exactly the gids of the
    decomposition.  A gid of no group is absent; a gid of some group is
    present; and every entry stays in bounds: its group index is that of a
    group which holds the gid, and its cell index is below the number of
    gids of the decomposition. *)
Theorem construct_maps_exactly_the_local_gids groups (cell_groups : list CG)
    (communicator : C) gid0 :
  (gid0 ∉ concat groups →
     gid_to_local_
       (construct groups event_generators resolve_label cell_groups communicator)
       !! gid0 = None)
  ∧ (gid0 ∈ concat groups →
     is_Some (gid_to_local_
       (construct groups event_generators resolve_label cell_groups communicator)
       !! gid0))
  ∧ (∀ info,
     gid_to_local_
       (construct groups event_generators resolve_label cell_groups communicator)
       !! gid0 = Some info →
     (cell_index info < length (concat groups))%nat
     ∧ (group_index info < length groups)%nat
     ∧ ∃ gids, groups !! group_index info = Some gids ∧ gid0 ∈ gids).
Proof. apply construct_gid_map. Qed.
End constructor_facts.

(** ** get_probe_metadata and the states the driver reaches *)

Section reachable_states.
Context {CG C G M : Type}
  `{!CellGroup CG, !Communicator C, !EventGenerator G, !CommunicatorDelay C,
    !ProbeMetadata CG M}.
Abbreviation state := (simulation_state (CG:=CG) (C:=C) (G:=G)).
Context (event_generators : N → list G) (resolve_label : N → G → G).

Lemma public_steps_lanes_sorted (st st' : state) :
  generators_keep_contract G → lanes_sorted st →
  rtc public_step st st' → lanes_sorted st'.
Proof.
  intros Hgen Hst Hsteps. induction Hsteps as [|st st1 st' Hstep _ IH]; [done|].
  apply IH. by eapply public_step_lanes_sorted.
Qed.

(** X15: on a simulation built by the constructor, with one cell group per
    group of the decomposition, [get_probe_metadata] never throws
    [std::out_of_range], whatever calls of [run], [inject_events] and [reset]
    came before: for a gid of no group it returns the empty sequence, and
    for a gid of the decomposition it returns what a cell group of a group
    holding that gid answers. *)
Theorem get_probe_metadata_stays_in_range groups (cell_groups : list CG)
    (communicator : C) (st : state) (probe_id : cell_member_type) :
  length cell_groups = length groups →
  rtc public_step
    (construct groups event_generators resolve_label cell_groups communicator) st →
  (gid probe_id ∉ concat groups →
     get_probe_metadata (M:=M) probe_id st = ProbeReturns [])
  ∧ (gid probe_id ∈ concat groups →
     ∃ j gids group,
       groups !! j = Some gids ∧ gid probe_id ∈ gids
       ∧ cell_groups_ st !! j = Some group
       ∧ get_probe_metadata (M:=M) probe_id st
           = ProbeReturns (group_get_probe_metadata group probe_id)).
Proof.
  intros Hlen Hsteps.
  apply public_steps_same_shape in Hsteps as (Hmap & _ & Hgroups & _).
  assert (length (cell_groups_ st) = length groups) as Hlen'.
  { rewrite Hgroups.
    by destruct (construct_fields event_generators resolve_label groups
                   cell_groups communicator) as (? & ? & _ & ->). }
  destruct (construct_gid_map event_generators resolve_label groups
              cell_groups communicator (gid probe_id)) as (Hnone & Hsome & Hbound).
  unfold get_probe_metadata. rewrite Hmap. split.
  - intros Hnin. by rewrite Hnone.
  - intros Hin. destruct (Hsome Hin) as [info Hinfo]. rewrite Hinfo.
    destruct (Hbound info Hinfo) as (_ & Hlt & gids & Hg & Hgid).
    destruct (lookup_lt_is_Some_2 (cell_groups_ st) (group_index info))
      as [group Hgroup]; [lia|].
    rewrite Hgroup. by exists (group_index info), gids, group.
Qed.

(** X16: every state the driver reaches from a constructed simulation by
    calls of [run], [inject_events] and [reset] has time-sorted event lanes
    (with generators that keep their contract), as many lanes in each buffer
    as the communicator counted local cells, and half the minimum delay as
    its epoch interval. *)
Theorem reachable_states_are_well_formed groups (cell_groups : list CG)
    (communicator : C) (st : state) :
  generators_keep_contract G →
  rtc public_step
    (construct groups event_generators resolve_label cell_groups communicator) st →
  lanes_sorted st
  ∧ length (event_lanes_ st).1 = num_local_cells communicator
  ∧ length (event_lanes_ st).2 = num_local_cells communicator
  ∧ t_interval_ st = min_delay communicator / 2.
Proof.
  intros Hgen Hsteps.
  destruct (construct_fields event_generators resolve_label groups
              cell_groups communicator) as (m' & g' & _ & Heq).
  split.
  - eapply public_steps_lanes_sorted; [done| |done]. rewrite Heq.
    split; simpl; apply Forall_forall; by intros ? [-> _]%elem_of_replicate.
  - apply public_steps_same_shape in Hsteps as (_ & -> & _ & _ & -> & ->).
    rewrite Heq. simpl. by rewrite !length_replicate.
Qed.
End reachable_states.

(** ** run over a single epoch, and an injected event *)

Section single_epoch.
Context {CG C G : Type} `{!CellGroup CG, !Communicator C, !EventGenerator G}.
Abbreviation state := (simulation_state (CG:=CG) (C:=C) (G:=G)).

Lemma run_single_epoch fuel tfinal dt (st : state) :
  t1 (epoch_ st) < tfinal → tfinal <= t1 (epoch_ st) + t_interval_ st →
  ∃ current,
    run fuel tfinal dt st
      = Some (t1 current,
              set_epoch current
                (exchange_task current (update dt current (enqueue current st))))
    ∧ id current = (id (epoch_ st) + 1)%Z
    ∧ t0 current = t1 (epoch_ st)
    ∧ t1 current == tfinal.
Proof.
  intros Hfinal Hwithin. unfold run.
  destruct (time_le tfinal (t1 (epoch_ st))) eqn:Efinal; times; [lra|].
  set (current := next_epoch tfinal (epoch_ st) (t_interval_ st)).
  set (next := next_epoch tfinal current (t_interval_ st)).
  pose proof (next_epoch_t1 tfinal (epoch_ st) (t_interval_ st)) as Hc1.
  fold current in Hc1.
  assert (t1 current == tfinal) as Hcur.
  { destruct (std_min_cases (t1 (epoch_ st) + t_interval_ st) tfinal)
      as [[? Hmin]|[? Hmin]]; rewrite Hmin in Hc1; qlra. }
  assert (epoch_empty next = true) as ->.
  { unfold epoch_empty, next. rewrite next_epoch_t0, next_epoch_t1. times.
    destruct (std_min_cases (t1 current + t_interval_ st) tfinal)
      as [[? ->]|[? ->]]; qlra. }
  by exists current.
Qed.

(** X17: when [tfinal] lies after the end of the recorded epoch and within
    one epoch interval of it, [run] is a single round: the enqueue, update
    and exchange tasks for one epoch, one after the other.  It needs no
    iteration of its loop, records the epoch from the old end to [tfinal]
    with the next id, and returns [tfinal]. *)
Theorem run_within_one_interval_is_one_round fuel tfinal dt (st : state) :
  t1 (epoch_ st) < tfinal → tfinal <= t1 (epoch_ st) + t_interval_ st →
  ∃ current,
    run fuel tfinal dt st
      = Some (t1 current,
              set_epoch current
                (exchange_task current (update dt current (enqueue current st))))
    ∧ id current = (id (epoch_ st) + 1)%Z
    ∧ t0 current = t1 (epoch_ st)
    ∧ t1 current == tfinal.
Proof. apply run_single_epoch. Qed.

(** X18: an event injected for a local cell, with a time not before the end
    of the recorded epoch, is on that cell's lane after the next [run] over
    one epoch, together with the events that were pending for the cell: the
    call of [inject_events] returns, [run] returns [tfinal], and the lane of
    the recorded epoch holds the event. *)
Theorem injected_event_is_on_the_lane_after_run fuel tfinal dt (st : state)
    gid0 e info pending old_events generators :
  gid_to_local_ st !! gid0 = Some info →
  (cell_index info < num_local_cells (communicator_ st))%nat →
  pending_events_ st !! cell_index info = Some pending →
  event_lanes (id (epoch_ st)) st !! cell_index info = Some old_events →
  event_generators_ st !! cell_index info = Some generators →
  is_Some (event_lanes (id (epoch_ st) + 1) st !! cell_index info) →
  time_sorted old_events →
  t1 (epoch_ st) <= time e →
  t1 (epoch_ st) < tfinal → tfinal <= t1 (epoch_ st) + t_interval_ st →
  ∃ st1 t st2 lane,
    inject_events [(gid0, [e])] st = (Returns (), st1)
    ∧ run fuel tfinal dt st1 = Some (t, st2)
    ∧ t == tfinal
    ∧ event_lanes (id (epoch_ st2)) st2 !! cell_index info = Some lane
    ∧ e ∈ lane
    ∧ (∀ x, x ∈ pending → x ∈ lane).
Proof.
  intros Hgid Hi Hp Ho Hg [lane0 Hl] Hsorted He Hfinal Hwithin.
  set (i := cell_index info) in *.
  set (st1 := inject_all [(gid0, e)] st).
  assert (inject_events [(gid0, [e])] st = (Returns (), st1)) as Hinject.
  { rewrite inject_events_flat. apply inject_flat_accepts.
    unfold flatten_events. simpl. by repeat constructor. }
  destruct (inject_all_frame [(gid0, e)] st) as (Hepoch & Hlanes & _ & _ & Hcomm & Hgen & _).
  destruct (inject_all_gid_to_local [(gid0, e)] st) as [_ Hint].
  fold st1 in Hepoch, Hlanes, Hcomm, Hgen, Hint.
  assert (pending_events_ st1 !! i = Some (pending ++ [e])) as Hp1.
  { unfold st1. rewrite inject_all_pending, Hp. unfold events_for_cell. simpl.
    rewrite Hgid. fold i. by rewrite decide_True. }
  destruct (run_single_epoch fuel tfinal dt st1) as (current & Hrun & Hid & _ & Ht);
    [by rewrite Hepoch|by rewrite Hepoch, Hint|].
  rewrite Hepoch in Hid.
  assert (∀ k, event_lanes k st1 = event_lanes k st) as Hlanes1.
  { intros k. unfold event_lanes. by rewrite Hlanes. }
  destruct (enqueue_at_cell current st1 i (pending ++ [e]) old_events generators lane0)
    as (_ & _ & Hl'); try done.
  { by rewrite Hcomm. }
  { rewrite Hlanes1. by replace (id current - 1)%Z with (id (epoch_ st)) by lia. }
  { by rewrite Hgen. }
  { rewrite Hlanes1, Hid. done. }
  eexists st1, _, _, _. split; [done|]. split; [done|]. split; [done|].
  assert (∀ x, x ∈ pending ++ [e] →
            x ∈ (merge_cell_events (t0 current) (t1 current) old_events
                   (util_sort event_lt (pending ++ [e])) generators lane0).2)
    as Hin.
  { intros x Hx. rewrite merge_cell_events_Permutation by done.
    rewrite util_sort_Permutation. apply elem_of_app. right.
    apply elem_of_app. by left. }
  split; [|split].
  - simpl. rewrite <- Hl'. unfold event_lanes. simpl.
    by rewrite exchange_task_event_lanes, update_event_lanes.
  - apply Hin. apply elem_of_app. right. by constructor.
  - intros x Hx. apply Hin. apply elem_of_app. by left.
Qed.
End single_epoch.

(** ** The mechanism catalogue of the gpu back end *)

Section gpu_backend_facts.
Context {View Weights Indices Mechanism : Type}.
Abbreviation maker_type := (View → View → Weights → Indices → Mechanism).

(** X19: [has_mechanism(name)] is exactly the condition under which
    [make_mechanism] makes a mechanism.  For a name in the catalogue it
    returns what the registered maker builds; for any other name it throws
    [std::out_of_range] with the message "no mechanism in database : "
    followed by the name.  The iterator [find] returns is never dereferenced
    at the end of the map. *)
Theorem make_mechanism_throws_iff_not_registered
    (mech_map_ : gmap string maker_type) name vec_v vec_i weights node_indices :
  (has_mechanism mech_map_ name = true ↔ is_Some (mech_map_ !! name))
  ∧ (∀ maker, mech_map_ !! name = Some maker →
       make_mechanism mech_map_ name vec_v vec_i weights node_indices
         = MechanismMade (maker vec_v vec_i weights node_indices))
  ∧ (mech_map_ !! name = None →
       make_mechanism mech_map_ name vec_v vec_i weights node_indices
         = MechanismOutOfRange ("no mechanism in database : " +:+ name))
  ∧ make_mechanism mech_map_ name vec_v vec_i weights node_indices
      ≠ MechanismEndDereferenced.
Proof.
  unfold make_mechanism, has_mechanism, map_count.
  destruct (mech_map_ !! name) as [maker|]; simpl.
  - split; [by split; eauto|]. split; [by intros ? [= <-]|]. by split.
  - split; [split; [done|by intros [? ?]]|]. split; [done|]. by split.
Qed.
End gpu_backend_facts.

(** ** reset and the constructed state *)

Section reset_round_trip.
Context {CG C G : Type}
  `{!CellGroup CG, !Communicator C, !EventGenerator G, !CommunicatorDelay C}.
Abbreviation state := (simulation_state (CG:=CG) (C:=C) (G:=G)).
Context (event_generators : N → list G) (resolve_label : N → G → G).

(** X20: [reset()] takes the simulation back to the state the constructor
    built, whatever calls of [run], [inject_events] and [reset] came before,
    provided the collaborators' own resets (of the groups, the generators
    and the communicator) restore their constructed states and the
    communicator has kept the number of pending buffers.  A run after
    [reset()] therefore starts from exactly the state of a new simulation. *)
Theorem reset_restores_the_constructed_state groups (cell_groups : list CG)
    (communicator : C) (st : state) :
  rtc public_step
    (construct groups event_generators resolve_label cell_groups communicator) st →
  group_reset <$> cell_groups_ st = cell_groups →
  (λ lane : list G, generator_reset <$> lane) <$> event_generators_ st
    = event_generators_
        (construct groups event_generators resolve_label cell_groups communicator) →
  communicator_reset (communicator_ st) = communicator →
  length (pending_events_ st) = num_local_cells communicator →
  reset st
    = construct groups event_generators resolve_label cell_groups communicator.
Proof.
  intros Hsteps Hgroups Hgens Hcomm Hpending.
  apply public_steps_same_shape in Hsteps as (Hmap & Hint & _ & _ & Hl1 & Hl2).
  destruct (construct_fields event_generators resolve_label groups
              cell_groups communicator) as (m' & g' & _ & Heq).
  rewrite Heq in *. simpl in *.
  rewrite length_replicate in Hl1, Hl2.
  destruct st as [e ti cg eg m c p [l1 l2] [s1 s2]]. simpl in *.
  unfold reset. simpl.
  rewrite !fmap_vector_clear, Hgroups, Hgens, Hcomm, Hpending, Hmap, Hint, Hl1, Hl2.
  done.
Qed.
End reset_round_trip.

(** ** More of the driver on the small network *)

Module MoreDemoFacts.
Import Demo Demo2.

Lemma one_shot_contract : generators_keep_contract one_shot.
Proof.
  intros t_from t_to g. unfold yields_in_window. simpl.
  destruct (time_le t_from (time g)) eqn:E1; simpl; [|done].
  destruct (time_lt (time g) t_to) eqn:E2; simpl; [|done].
  times. split; [done|]. by repeat constructor.
Qed.

Lemma public_steps_of_the_demo : rtc public_step two_cells (reset after_inject).
Proof.
  apply (rtc_l _ _ after_run).
  { apply (step_run 8 5 (1#10) two_cells (Returns 5)). by vm_compute. }
  apply (rtc_l _ _ after_inject).
  { apply (step_inject_events [(1%N, [ev 7 1; ev 6 1])] after_run (Returns ())).
    by vm_compute. }
  apply rtc_once, step_reset.
Qed.

Lemma public_steps_from_constructed :
  rtc public_step constructed (reset (inject_events [(1%N, [ev 7 1])] constructed).2).
Proof.
  apply (rtc_l _ _ (inject_events [(1%N, [ev 7 1])] constructed).2).
  { apply (step_inject_events [(1%N, [ev 7 1])] constructed (Returns ())).
    by vm_compute. }
  apply rtc_once, step_reset.
Qed.

Lemma split_sorted_range_at_partition_point_witness :
  Forall (λ e, (e <? 4)%nat = true) [1; 2]%nat
  ∧ Forall (λ e, (e <? 4)%nat = false) [5; 7]%nat
  ∧ split_sorted_range ([1; 2] ++ [5; 7])%nat 4%nat Nat.ltb = ([1; 2], [5; 7])%nat.
Proof.
  assert (H1 : Forall (λ e, (e <? 4)%nat = true) [1; 2]%nat) by by repeat constructor.
  assert (H2 : Forall (λ e, (e <? 4)%nat = false) [5; 7]%nat) by by repeat constructor.
  do 2 (split; [assumption|]).
  exact (split_sorted_range_at_partition_point Nat.ltb 4%nat [1; 2]%nat [5; 7]%nat H1 H2).
Defined.

Lemma split_sorted_range_of_sorted_events_witness :
  let l := [ev 1 1; ev 5 2; ev 5 1; ev 7 1] in
  time_sorted l
  ∧ (split_sorted_range l 5 event_time_less).1
      = List.filter (λ e, time_lt (time e) 5) l
  ∧ (split_sorted_range l 5 event_time_less).2
      = List.filter (λ e, time_le 5 (time e)) l
  ∧ (split_sorted_range l 5 event_time_less).1
      ++ (split_sorted_range l 5 event_time_less).2 = l.
Proof.
  intros l. assert (H1 : time_sorted l) by reflexivity.
  split; [assumption|].
  exact (split_sorted_range_of_sorted_events l 5 H1).
Defined.

Lemma merge_cell_events_conserves_events_witness :
  let old_events := [ev 4 2; ev 5 2; ev 12 2] in
  let pending := [ev 5 1; ev 12 1] in
  let generators : list one_shot := [ev 5 7; ev 20 1] in
  time_sorted old_events
  ∧ (merge_cell_events 5 10 old_events pending generators []).2
      ≡ₚ List.filter (λ e, time_le 5 (time e)) old_events ++ pending
           ++ concat (generator_spans 5 10 generators)
  ∧ (merge_cell_events 5 10 old_events pending generators []).1
      = (λ g, (events 5 10 g).2) <$> generators.
Proof.
  intros old_events pending generators.
  assert (H1 : time_sorted old_events) by reflexivity.
  split; [assumption|].
  exact (merge_cell_events_conserves_events 5 10 old_events pending generators [] H1).
Defined.

Lemma merge_cell_events_carries_old_events_over_witness :
  let old_events := [ev 4 2; ev 5 2; ev 12 2] in
  time_sorted old_events
  ∧ merge_cell_events (G:=one_shot) 5 10 old_events [] [] [ev 1 1]
      = ([], List.filter (λ e, time_le 5 (time e)) old_events).
Proof.
  intros old_events. assert (H1 : time_sorted old_events) by reflexivity.
  split; [assumption|].
  exact (merge_cell_events_carries_old_events_over 5 10 old_events [ev 1 1] H1).
Defined.

Lemma inject_events_appends_in_call_order_witness :
  let call := [(1%N, [ev 7 1; ev 6 1]); (9%N, [ev 8 1]); (1%N, [ev 5 1])] in
  (∀ gid evs e, (gid, evs) ∈ call → e ∈ evs → t1 (epoch_ after_run) <= time e)
  ∧ events_for_cell (gid_to_local_ after_run) 1 (flatten_events call)
      = [ev 7 1; ev 6 1; ev 5 1]
  ∧ ∃ st',
      inject_events call after_run = (Returns (), st')
      ∧ (∀ i, pending_events_ st' !! i
              = (λ p, p ++ events_for_cell (gid_to_local_ after_run) i
                             (flatten_events call))
                  <$> pending_events_ after_run !! i)
      ∧ epoch_ st' = epoch_ after_run ∧ event_lanes_ st' = event_lanes_ after_run
      ∧ local_spikes_ st' = local_spikes_ after_run
      ∧ cell_groups_ st' = cell_groups_ after_run
      ∧ communicator_ st' = communicator_ after_run
      ∧ event_generators_ st' = event_generators_ after_run.
Proof.
  intros call.
  assert (H1 : ∀ gid evs e, (gid, evs) ∈ call → e ∈ evs →
                 t1 (epoch_ after_run) <= time e).
  { assert (Ht : t1 (epoch_ after_run) = 5) by (by vm_compute). rewrite Ht.
    assert (Hall : Forall (λ entry : N * pse_vector,
                             Forall (λ e, 5 <= time e) entry.2) call)
      by (repeat constructor; by vm_compute).
    intros gid evs e Hentry He. rewrite Forall_forall in Hall.
    specialize (Hall _ Hentry). simpl in Hall. rewrite Forall_forall in Hall.
    by apply Hall. }
  split; [assumption|]. split; [by vm_compute|].
  exact (inject_events_appends_in_call_order call after_run H1).
Defined.

(** The rounded sum of [quarter_add] is at most 1/4 below the exact one. *)
Lemma quarter_add_bounds (t : time_type) :
  t + (1#12) <= quarter_add t (1#3) ∧ quarter_add t (1#3) <= t + (1#3).
Proof.
  unfold quarter_add.
  pose proof (Qfloor_le ((t + (1#3)) * 4)) as Hle.
  pose proof (Qlt_floor ((t + (1#3)) * 4)) as Hlt.
  rewrite inject_Z_plus in Hlt. change (inject_Z 1) with 1 in Hlt.
  split; lra.
Qed.

(** On [thirds], with sums rounded down to quarters, [run(1, 0.1)] takes
    four epochs of a quarter each; with exact sums it takes three. *)
Lemma run_reaches_tfinal_witness :
  0 < 1#12
  ∧ (∀ t, t1 (epoch_ thirds) <= t → t <= 1 →
       t + (1#12) <= quarter_add t (t_interval_ thirds)
       ∧ quarter_add t (t_interval_ thirds) <= t + (1#3))
  ∧ t1 (epoch_ thirds) < 1
  ∧ (∃ fuel0 t st',
      (∀ fuel, (fuel0 ≤ fuel)%nat →
         run_rounded quarter_add fuel 1 (1#10) thirds = Some (t, st'))
      ∧ t == 1
      ∧ (∃ n : nat,
           id (epoch_ st') = (id (epoch_ thirds) + Z.of_nat (S n))%Z
           ∧ inject_Z (Z.of_nat n) * (1#12) < 1 - t1 (epoch_ thirds)
           ∧ 1 - t1 (epoch_ thirds) <= inject_Z (Z.of_nat (S n)) * (1#3))
      ∧ t1 (epoch_ thirds) <= t0 (epoch_ st')
      ∧ t0 (epoch_ st') < t1 (epoch_ st')
      ∧ t1 (epoch_ st') <= t0 (epoch_ st') + (1#3))
  ∧ (epoch_ <$> (snd <$> run_rounded quarter_add 8 1 (1#10) thirds))
      = Some (mk_epoch 4 (3#4) (4#4))
  ∧ (epoch_ <$> (snd <$> run 8 1 (1#10) thirds)) = Some (mk_epoch 3 (6#9) (27#27)).
Proof.
  assert (H1 : 0 < 1#12) by reflexivity.
  assert (H2 : ∀ t, t1 (epoch_ thirds) <= t → t <= 1 →
                t + (1#12) <= quarter_add t (t_interval_ thirds)
                ∧ quarter_add t (t_interval_ thirds) <= t + (1#3))
    by (intros t _ _; apply quarter_add_bounds).
  assert (H3 : t1 (epoch_ thirds) < 1) by reflexivity.
  do 3 (split; [assumption|]).
  split; [|split; vm_compute; reflexivity].
  exact (run_reaches_tfinal quarter_add (1#12) (1#3) 1 (1#10) thirds H1 H2 H3).
Defined.

Lemma run_with_zero_interval_makes_no_progress_witness :
  t_interval_ no_delay == 0 ∧ t1 (epoch_ no_delay) < 5
  ∧ ∃ current,
      run 0 5 1 no_delay
        = Some (t1 current,
                set_epoch current
                  (exchange_task current (update 1 current (enqueue current no_delay))))
      ∧ id current = (id (epoch_ no_delay) + 1)%Z
      ∧ t0 current = t1 (epoch_ no_delay)
      ∧ t1 current == t1 (epoch_ no_delay).
Proof.
  assert (H1 : t_interval_ no_delay == 0) by reflexivity.
  assert (H2 : t1 (epoch_ no_delay) < 5) by reflexivity.
  do 2 (split; [assumption|]).
  exact (run_with_zero_interval_makes_no_progress 0 5 1 no_delay H1 H2).
Defined.

Lemma public_operations_keep_shape_witness :
  rtc public_step two_cells (reset after_inject)
  ∧ gid_to_local_ (reset after_inject) = gid_to_local_ two_cells
  ∧ t_interval_ (reset after_inject) = t_interval_ two_cells
  ∧ length (cell_groups_ (reset after_inject)) = length (cell_groups_ two_cells)
  ∧ length <$> event_generators_ (reset after_inject)
      = length <$> event_generators_ two_cells
  ∧ length (event_lanes_ (reset after_inject)).1 = length (event_lanes_ two_cells).1
  ∧ length (event_lanes_ (reset after_inject)).2 = length (event_lanes_ two_cells).2.
Proof.
  assert (H1 : rtc public_step two_cells (reset after_inject))
    by apply public_steps_of_the_demo.
  split; [assumption|].
  exact (public_operations_keep_shape two_cells (reset after_inject) H1).
Defined.

Lemma enqueue_delivers_pending_events_witness :
  let next := mk_epoch 6 5 6 in
  let pending := [ev (13#2) 1; ev 7 1; ev 6 1] in
  (1 < num_local_cells (communicator_ after_inject))%nat
  ∧ pending_events_ after_inject !! 1%nat = Some pending
  ∧ event_lanes (id next - 1) after_inject !! 1%nat = Some []
  ∧ event_generators_ after_inject !! 1%nat = Some []
  ∧ is_Some (event_lanes (id next) after_inject !! 1%nat)
  ∧ time_sorted []
  ∧ pending_events_ (enqueue next after_inject) !! 1%nat = Some []
  ∧ (∃ lane,
       event_lanes (id next) (enqueue next after_inject) !! 1%nat = Some lane
       ∧ lane ≡ₚ List.filter (λ e, time_le (t0 next) (time e)) []
                   ++ pending
                   ++ concat (generator_spans (G:=one_shot) (t0 next) (t1 next) []))
  ∧ event_generators_ (enqueue next after_inject) !! 1%nat
      = Some ((λ g, (events (t0 next) (t1 next) g).2) <$> [])
  ∧ event_lanes (id next - 1) (enqueue next after_inject)
      = event_lanes (id next - 1) after_inject.
Proof.
  intros next pending.
  assert (H1 : (1 < num_local_cells (communicator_ after_inject))%nat)
    by (vm_compute; lia).
  assert (H2 : pending_events_ after_inject !! 1%nat = Some pending) by by vm_compute.
  assert (H3 : event_lanes (id next - 1) after_inject !! 1%nat = Some [])
    by by vm_compute.
  assert (H4 : event_generators_ after_inject !! 1%nat = Some []) by by vm_compute.
  assert (H5 : is_Some (event_lanes (id next) after_inject !! 1%nat))
    by (vm_compute; eauto).
  assert (H6 : time_sorted []) by reflexivity.
  do 6 (split; [assumption|]).
  exact (enqueue_delivers_pending_events next after_inject 1 pending [] []
           H1 H2 H3 H4 H5 H6).
Defined.

Lemma enqueue_next_and_update_current_commute_witness :
  let current := mk_epoch 1 0 1 in
  let next := mk_epoch 2 1 2 in
  id next = (id current + 1)%Z
  ∧ update (1#10) current (enqueue next two_cells)
      = enqueue next (update (1#10) current two_cells).
Proof.
  intros current next. assert (H1 : id next = (id current + 1)%Z) by reflexivity.
  split; [assumption|].
  exact (enqueue_next_and_update_current_commute (1#10) current next two_cells H1).
Defined.

Lemma construct_numbers_cells_in_order_witness :
  [[0%N]; [1%N]] !! 1%nat = Some [1%N] ∧ [1%N] !! 0%nat = Some 1%N
  ∧ (NoDup (concat [[0%N]; [1%N]]) →
       gid_to_local_ constructed !! 1%N
       = Some (mk_gid_local_info (length (concat (take 1 [[0%N]; [1%N]])) + 0) 1))
  ∧ ((length (concat (take 1 [[0%N]; [1%N]])) + 0 < num_local_cells (mk_ring 2 2 0))%nat →
       event_generators_ constructed
         !! (length (concat (take 1 [[0%N]; [1%N]])) + 0)%nat
       = Some ((λ g : one_shot, g) <$> demo_generators 1)).
Proof.
  assert (H1 : [[0%N]; [1%N]] !! 1%nat = Some [1%N]) by reflexivity.
  assert (H2 : [1%N] !! 0%nat = Some 1%N) by reflexivity.
  do 2 (split; [assumption|]).
  exact (construct_numbers_cells_in_order demo_generators (λ _ g, g)
           [[0%N]; [1%N]] [mk_relay 0 []; mk_relay 1 []] (mk_ring 2 2 0)
           1 [1%N] 0 1%N H1 H2).
Defined.

Lemma get_probe_metadata_stays_in_range_witness :
  let st := reset (inject_events [(1%N, [ev 7 1])] constructed).2 in
  let probe_id := mk_cell_member 1 0 in
  length [mk_relay 0 []; mk_relay 1 []] = length [[0%N]; [1%N]]
  ∧ rtc public_step constructed st
  ∧ (gid probe_id ∉ concat [[0%N]; [1%N]] →
       get_probe_metadata (M:=N) probe_id st = ProbeReturns [])
  ∧ (gid probe_id ∈ concat [[0%N]; [1%N]] →
       ∃ j gids group,
         [[0%N]; [1%N]] !! j = Some gids ∧ gid probe_id ∈ gids
         ∧ cell_groups_ st !! j = Some group
         ∧ get_probe_metadata (M:=N) probe_id st
             = ProbeReturns (group_get_probe_metadata group probe_id)).
Proof.
  intros st probe_id.
  assert (H1 : length [mk_relay 0 []; mk_relay 1 []] = length [[0%N]; [1%N]])
    by reflexivity.
  assert (H2 : rtc public_step constructed st) by apply public_steps_from_constructed.
  do 2 (split; [assumption|]).
  exact (get_probe_metadata_stays_in_range demo_generators (λ _ g, g)
           [[0%N]; [1%N]] [mk_relay 0 []; mk_relay 1 []] (mk_ring 2 2 0)
           st probe_id H1 H2).
Defined.

Lemma reachable_states_are_well_formed_witness :
  let st := reset (inject_events [(1%N, [ev 7 1])] constructed).2 in
  generators_keep_contract one_shot
  ∧ rtc public_step constructed st
  ∧ lanes_sorted st
  ∧ length (event_lanes_ st).1 = num_local_cells (mk_ring 2 2 0)
  ∧ length (event_lanes_ st).2 = num_local_cells (mk_ring 2 2 0)
  ∧ t_interval_ st = min_delay (mk_ring 2 2 0) / 2.
Proof.
  intros st.
  assert (H1 : generators_keep_contract one_shot) by apply one_shot_contract.
  assert (H2 : rtc public_step constructed st) by apply public_steps_from_constructed.
  do 2 (split; [assumption|]).
  exact (reachable_states_are_well_formed demo_generators (λ _ g, g)
           [[0%N]; [1%N]] [mk_relay 0 []; mk_relay 1 []] (mk_ring 2 2 0) st H1 H2).
Defined.

Lemma run_within_one_interval_is_one_round_witness :
  t1 (epoch_ two_cells) < 1 ∧ 1 <= t1 (epoch_ two_cells) + t_interval_ two_cells
  ∧ ∃ current,
      run 0 1 (1#10) two_cells
        = Some (t1 current,
                set_epoch current
                  (exchange_task current
                     (update (1#10) current (enqueue current two_cells))))
      ∧ id current = (id (epoch_ two_cells) + 1)%Z
      ∧ t0 current = t1 (epoch_ two_cells)
      ∧ t1 current == 1.
Proof.
  assert (H1 : t1 (epoch_ two_cells) < 1) by reflexivity.
  assert (H2 : 1 <= t1 (epoch_ two_cells) + t_interval_ two_cells) by by vm_compute.
  do 2 (split; [assumption|]).
  exact (run_within_one_interval_is_one_round 0 1 (1#10) two_cells H1 H2).
Defined.

Lemma injected_event_is_on_the_lane_after_run_witness :
  let info := mk_gid_local_info 1 1 in
  let e := ev (1#2) 3 in
  gid_to_local_ two_cells !! 1%N = Some info
  ∧ (cell_index info < num_local_cells (communicator_ two_cells))%nat
  ∧ pending_events_ two_cells !! cell_index info = Some []
  ∧ event_lanes (id (epoch_ two_cells)) two_cells !! cell_index info = Some []
  ∧ event_generators_ two_cells !! cell_index info = Some []
  ∧ is_Some (event_lanes (id (epoch_ two_cells) + 1) two_cells !! cell_index info)
  ∧ time_sorted []
  ∧ t1 (epoch_ two_cells) <= time e
  ∧ t1 (epoch_ two_cells) < 1
  ∧ 1 <= t1 (epoch_ two_cells) + t_interval_ two_cells
  ∧ ∃ st1 t st2 lane,
      inject_events [(1%N, [e])] two_cells = (Returns (), st1)
      ∧ run 0 1 (1#10) st1 = Some (t, st2)
      ∧ t == 1
      ∧ event_lanes (id (epoch_ st2)) st2 !! cell_index info = Some lane
      ∧ e ∈ lane
      ∧ (∀ x, x ∈ [] → x ∈ lane).
Proof.
  intros info e.
  assert (H1 : gid_to_local_ two_cells !! 1%N = Some info) by reflexivity.
  assert (H2 : (cell_index info < num_local_cells (communicator_ two_cells))%nat)
    by (vm_compute; lia).
  assert (H3 : pending_events_ two_cells !! cell_index info = Some []) by reflexivity.
  assert (H4 : event_lanes (id (epoch_ two_cells)) two_cells !! cell_index info
               = Some []) by reflexivity.
  assert (H5 : event_generators_ two_cells !! cell_index info = Some [])
    by reflexivity.
  assert (H6 : is_Some (event_lanes (id (epoch_ two_cells) + 1) two_cells
                          !! cell_index info)) by (vm_compute; eauto).
  assert (H7 : time_sorted []) by reflexivity.
  assert (H8 : t1 (epoch_ two_cells) <= time e) by by vm_compute.
  assert (H9 : t1 (epoch_ two_cells) < 1) by reflexivity.
  assert (H10 : 1 <= t1 (epoch_ two_cells) + t_interval_ two_cells) by by vm_compute.
  do 10 (split; [assumption|]).
  exact (injected_event_is_on_the_lane_after_run 0 1 (1#10) two_cells 1%N e info
           [] [] [] H1 H2 H3 H4 H5 H6 H7 H8 H9 H10).
Defined.

Lemma public_steps_to_constructed_later : rtc public_step constructed constructed_later.
Proof.
  apply (rtc_l _ _ (match run 8 3 (1#10) constructed with
                    | Some (_, st) => st | None => constructed end)).
  { apply (step_run 8 3 (1#10) constructed
             (match run 8 3 (1#10) constructed with
              | Some (t, _) => Returns t | None => Returns 0 end)).
    by vm_compute. }
  apply rtc_once.
  apply (step_inject_events [(1%N, [ev 7 1])] _ (Returns ())). by vm_compute.
Qed.

Lemma reset_restores_the_constructed_state_witness :
  rtc public_step constructed constructed_later
  ∧ group_reset <$> cell_groups_ constructed_later = [mk_relay 0 []; mk_relay 1 []]
  ∧ (λ lane : list one_shot, generator_reset <$> lane)
      <$> event_generators_ constructed_later
    = event_generators_ constructed
  ∧ communicator_reset (communicator_ constructed_later) = mk_ring 2 2 0
  ∧ length (pending_events_ constructed_later) = num_local_cells (mk_ring 2 2 0)
  ∧ pending_events_ constructed_later = [[ev (9#2) 1]; [ev 7 1]]
  ∧ reset constructed_later = constructed.
Proof.
  assert (H1 : rtc public_step constructed constructed_later)
    by apply public_steps_to_constructed_later.
  assert (H2 : group_reset <$> cell_groups_ constructed_later
               = [mk_relay 0 []; mk_relay 1 []]) by by vm_compute.
  assert (H3 : (λ lane : list one_shot, generator_reset <$> lane)
                 <$> event_generators_ constructed_later
               = event_generators_ constructed) by by vm_compute.
  assert (H4 : communicator_reset (communicator_ constructed_later) = mk_ring 2 2 0)
    by by vm_compute.
  assert (H5 : length (pending_events_ constructed_later)
               = num_local_cells (mk_ring 2 2 0)) by by vm_compute.
  do 5 (split; [assumption|]). split; [vm_compute; reflexivity|].
  exact (reset_restores_the_constructed_state demo_generators (λ _ g, g)
           [[0%N]; [1%N]] [mk_relay 0 []; mk_relay 1 []] (mk_ring 2 2 0)
           constructed_later H1 H2 H3 H4 H5).
Defined.

(** On [both_driven] both groups spike in the epoch from 0 to 1.  Taking
    group 1 first stores its spike first; the groups and the content of the
    store are those of [update]. *)
Lemma update_stores_the_spikes_of_the_epoch_witness :
  [1; 0]%nat ≡ₚ seq 0 (length (cell_groups_ both_driven))
  ∧ cell_groups_ (update_in_order [1; 0]%nat (1#10) (mk_epoch 0 0 1) both_driven)
    = cell_groups_ (update (1#10) (mk_epoch 0 0 1) both_driven)
  ∧ local_spikes 0 (update_in_order [1; 0]%nat (1#10) (mk_epoch 0 0 1) both_driven)
    ≡ₚ local_spikes 0 (update (1#10) (mk_epoch 0 0 1) both_driven)
  ∧ local_spikes 0 (update_in_order [1; 0]%nat (1#10) (mk_epoch 0 0 1) both_driven)
    = [mk_spike 1 (3#4); mk_spike 0 (1#4)]
  ∧ local_spikes 0 (update (1#10) (mk_epoch 0 0 1) both_driven)
    = [mk_spike 0 (1#4); mk_spike 1 (3#4)]
  ∧ local_spikes (-1) (update_in_order [1; 0]%nat (1#10) (mk_epoch 0 0 1) both_driven)
    = [mk_spike 8 9].
Proof.
  assert (H1 : [1; 0]%nat ≡ₚ seq 0 (length (cell_groups_ both_driven)))
    by apply Permutation_swap.
  split; [assumption|].
  pose proof (update_stores_the_spikes_of_the_epoch [1; 0]%nat (1#10)
                (mk_epoch 0 0 1) both_driven H1)
    as (Hgroups & Hspikes & Hother & _).
  split; [rewrite Hgroups; by vm_compute|].
  split; [rewrite Hspikes; by vm_compute|].
  split; [by vm_compute|]. split; [by vm_compute|].
  etrans; [exact Hother|by vm_compute].
Defined.
End MoreDemoFacts.
